(** * genxls: schema extraction and code emission, verified against main.go

    A shallow embedding of the core of [main.go] (header detection, the
    field-definition parser, the three type tables, the cell decoder, the
    sheet aggregator and the three bundle emitters) together with the
    properties the specification states about them.

    Go strings are byte strings: [string] here is the sequence of bytes of
    the Go string, one [ascii] per byte.  Go's [int] is the 64-bit integer,
    modelled in [Z] with its range written out where the code checks it.

    Scope of the model.  [strconv.ParseFloat] is a variable of the section
    [Pipeline], and the case tables of package unicode are a parameter
    ([CaseTables]): every statement holds for any float parser and for any
    case tables.  [unicode.ToLower] and [unicode.ToUpper] are the code of
    the library over these tables; invalid UTF-8 is decoded to U+FFFD as
    [strings.Map] does.
    The separators '_' and '-', the blanks and the character classes of the
    field pattern are ASCII, so the functions that look for them walk the
    bytes: in UTF-8 an ASCII byte is always a rune of its own.  Reading the
    workbook and writing the output files are outside the model; a sheet is
    its name and its rows of cells. *)

From Stdlib Require Import ZArith Lia Bool List Ascii String.
From Corelib Require Import SpecFloat.
From stdpp Require Import base option list gmap strings.

Local Open Scope string_scope.
Local Open Scope Z_scope.

(** ** The Go standard library, as far as main.go calls it *)

Module utf8.

Definition RuneError : Z := 65533.   (* U+FFFD *)
Definition RuneSelf : Z := 128.
Definition MaxRune : Z := 1114111.   (* U+10FFFF *)

Definition byteval (c : ascii) : Z := Z.of_N (N_of_ascii c).
Definition byteof (z : Z) : ascii := ascii_of_N (Z.to_N z).

Definition between (lo x hi : Z) : bool := (lo <=? x) && (x <=? hi).

(** Size and accepted range of the second byte, per leading byte
    (the [first] and [acceptRanges] tables of unicode/utf8). *)
Definition lead (b0 : Z) : option (nat * Z * Z) :=
  if between 194 b0 223 then Some (2%nat, 128, 191)
  else if b0 =? 224 then Some (3%nat, 160, 191)
  else if between 225 b0 236 then Some (3%nat, 128, 191)
  else if b0 =? 237 then Some (3%nat, 128, 159)
  else if between 238 b0 239 then Some (3%nat, 128, 191)
  else if b0 =? 240 then Some (4%nat, 144, 191)
  else if between 241 b0 243 then Some (4%nat, 128, 191)
  else if b0 =? 244 then Some (4%nat, 128, 143)
  else None.

Definition cont (b : Z) : bool := between 128 b 191.

(** [utf8.DecodeRuneInString]: the first rune of [s] and its width in
    bytes; a byte that starts no valid encoding is [RuneError], width 1. *)
Definition DecodeRuneInString (s : list ascii) : Z * nat :=
  match s with
  | [] => (RuneError, 0%nat)
  | c0 :: t =>
    let b0 := byteval c0 in
    if b0 <? RuneSelf then (b0, 1%nat)
    else match lead b0 with
         | None => (RuneError, 1%nat)
         | Some (sz, lo, hi) =>
           match t with
           | [] => (RuneError, 1%nat)
           | c1 :: t1 =>
             let b1 := byteval c1 in
             if negb (between lo b1 hi) then (RuneError, 1%nat)
             else if (sz <=? 2)%nat
             then (Z.lor (Z.shiftl (Z.land b0 31) 6) (Z.land b1 63), 2%nat)
             else match t1 with
                  | [] => (RuneError, 1%nat)
                  | c2 :: t2 =>
                    let b2 := byteval c2 in
                    if negb (cont b2) then (RuneError, 1%nat)
                    else if (sz <=? 3)%nat
                    then (Z.lor (Z.shiftl (Z.land b0 15) 12)
                            (Z.lor (Z.shiftl (Z.land b1 63) 6) (Z.land b2 63)),
                          3%nat)
                    else match t2 with
                         | [] => (RuneError, 1%nat)
                         | c3 :: _ =>
                           let b3 := byteval c3 in
                           if negb (cont b3) then (RuneError, 1%nat)
                           else (Z.lor (Z.shiftl (Z.land b0 7) 18)
                                   (Z.lor (Z.shiftl (Z.land b1 63) 12)
                                      (Z.lor (Z.shiftl (Z.land b2 63) 6)
                                         (Z.land b3 63))),
                                 4%nat)
                         end
                  end
           end
         end
  end.

(** [utf8.RuneStart]. *)
Definition RuneStart (c : ascii) : bool := negb (Z.land (byteval c) 192 =? 128).

(** [utf8.DecodeLastRuneInString], on the reversed byte sequence [rs]
    (last byte first).  The scan for the start of the rune looks at most
    [UTFMax] = 4 bytes back. *)
Definition DecodeLastRuneInString (rs : list ascii) : Z * nat :=
  match rs with
  | [] => (RuneError, 0%nat)
  | c0 :: back =>
    if byteval c0 <? RuneSelf then (byteval c0, 1%nat)
    else
      let attempt (k : nat) :=
        let sub := rev (firstn k rs) in
        let '(r, size) := DecodeRuneInString sub in
        if (size =? k)%nat then (r, size) else (RuneError, 1%nat) in
      match back with
      | [] => attempt 1%nat
      | c1 :: back1 =>
        if RuneStart c1 then attempt 2%nat
        else match back1 with
             | [] => attempt 2%nat
             | c2 :: back2 =>
               if RuneStart c2 then attempt 3%nat
               else match back2 with
                    | [] => attempt 3%nat
                    | c3 :: back3 =>
                      if RuneStart c3 then attempt 4%nat
                      else match back3 with
                           | [] => attempt 4%nat
                           | _ :: _ => (RuneError, 1%nat)
                           end
                    end
             end
      end
  end.

(** [utf8.EncodeRune] / [Builder.WriteRune]. *)
Definition EncodeRune (r : Z) : list ascii :=
  if between 0 r 127 then [byteof r]
  else if between 128 r 2047
  then [byteof (Z.lor 192 (Z.shiftr r 6)); byteof (Z.lor 128 (Z.land r 63))]
  else if (r <? 0) || (MaxRune <? r) || between 55296 r 57343
  then [byteof 239; byteof 191; byteof 189]
  else if r <=? 65535
  then [byteof (Z.lor 224 (Z.shiftr r 12));
        byteof (Z.lor 128 (Z.land (Z.shiftr r 6) 63));
        byteof (Z.lor 128 (Z.land r 63))]
  else [byteof (Z.lor 240 (Z.shiftr r 18));
        byteof (Z.lor 128 (Z.land (Z.shiftr r 12) 63));
        byteof (Z.lor 128 (Z.land (Z.shiftr r 6) 63));
        byteof (Z.lor 128 (Z.land r 63))].

End utf8.

(** The case tables of package unicode ([CaseRanges], generated from the
    Unicode character database of the Go release in use) are data of the
    library and are taken as given: [lowerCase r] and [upperCase r] stand
    for [To(LowerCase, r)] and [To(UpperCase, r)].  Every statement below
    holds for every pair of tables; the one fact used of them is that
    U+FFFD, which has no case, is in no range of the tables, so that the
    look-up returns it unchanged. *)
Class CaseTables := {
  lowerCase : Z -> Z;
  upperCase : Z -> Z;
  lowerCase_RuneError : lowerCase 65533 = 65533;
  upperCase_RuneError : upperCase 65533 = 65533
}.

(** Tables without any case pair.  They show that the class is
    inhabited; they are no instance, so that nothing below is read with
    them unless it says so. *)
Definition caselessTables : CaseTables :=
  {| lowerCase := fun r => r; upperCase := fun r => r;
     lowerCase_RuneError := eq_refl; upperCase_RuneError := eq_refl |}.

Module unicode.

(** [unicode.ToLower] and [unicode.ToUpper]: the shift of the ASCII
    letters up to [MaxASCII], and the look-up [To(LowerCase, r)] or
    [To(UpperCase, r)] in the case tables for every other rune. *)
Definition ToLower `{CaseTables} (r : Z) : Z :=
  if r <=? 127 then (if utf8.between 65 r 90 then r + 32 else r)
  else lowerCase r.

Definition ToUpper `{CaseTables} (r : Z) : Z :=
  if r <=? 127 then (if utf8.between 97 r 122 then r - 32 else r)
  else upperCase r.

(** [unicode.IsSpace]: the Latin-1 switch and the White_Space table. *)
Definition IsSpace (r : Z) : bool :=
  if utf8.between 0 r 255
  then utf8.between 9 r 13 || (r =? 32) || (r =? 133) || (r =? 160)
  else (r =? 5760) || utf8.between 8192 r 8202 || utf8.between 8232 r 8233
       || (r =? 8239) || (r =? 8287) || (r =? 12288).

End unicode.

Module strings.

Abbreviation bytes := list_ascii_of_string.
Abbreviation str := string_of_list_ascii.

Definition isASCII (s : string) : bool :=
  forallb (fun c => utf8.byteval c <? utf8.RuneSelf) (bytes s).

(** [strings.Map]: every rune of [s] (an invalid byte reads as U+FFFD,
    one byte wide) is replaced by the encoding of its image; a negative
    image is dropped.  [skip] counts the bytes of [s] that still belong
    to the rune decoded last. *)
Fixpoint MapFrom (mapping : Z -> Z) (skip : nat) (s : list ascii) : list ascii :=
  match s with
  | [] => []
  | _ :: rest =>
    match skip with
    | S k => MapFrom mapping k rest
    | O =>
      let '(c, width) := utf8.DecodeRuneInString s in
      let r := mapping c in
      (if r <? 0 then [] else utf8.EncodeRune r)
        ++ MapFrom mapping (Nat.pred width) rest
    end
  end.

Definition Map (mapping : Z -> Z) (s : string) : string :=
  str (MapFrom mapping 0 (bytes s)).

Definition lowerByte (c : ascii) : ascii :=
  if utf8.between 65 (utf8.byteval c) 90 then utf8.byteof (utf8.byteval c + 32) else c.

Definition upperByte (c : ascii) : ascii :=
  if utf8.between 97 (utf8.byteval c) 122 then utf8.byteof (utf8.byteval c - 32) else c.

(** [strings.ToLower] / [strings.ToUpper]: the byte loop for ASCII-only
    strings, [Map] otherwise. *)
Definition ToLower `{CaseTables} (s : string) : string :=
  if isASCII s then str (map lowerByte (bytes s)) else Map unicode.ToLower s.

Definition ToUpper `{CaseTables} (s : string) : string :=
  if isASCII s then str (map upperByte (bytes s)) else Map unicode.ToUpper s.

(** [strings.TrimLeftFunc s unicode.IsSpace]. *)
Fixpoint trimLeftSpace (skip : nat) (s : list ascii) : list ascii :=
  match s with
  | [] => []
  | _ :: rest =>
    match skip with
    | S k => trimLeftSpace k rest
    | O =>
      let '(r, width) := utf8.DecodeRuneInString s in
      if unicode.IsSpace r then trimLeftSpace (Nat.pred width) rest else s
    end
  end.

(** [strings.TrimRightFunc s unicode.IsSpace], on the reversed bytes. *)
Fixpoint trimRightSpace (skip : nat) (rs : list ascii) : list ascii :=
  match rs with
  | [] => []
  | _ :: rest =>
    match skip with
    | S k => trimRightSpace k rest
    | O =>
      let '(r, size) := utf8.DecodeLastRuneInString rs in
      if unicode.IsSpace r then trimRightSpace (Nat.pred size) rest else rs
    end
  end.

(** [strings.TrimSpace]: leading and trailing white space (as Unicode
    defines it) removed.  Go's loop over ASCII bytes is a fast path of
    this. *)
Definition TrimSpace (s : string) : string :=
  str (rev (trimRightSpace 0 (rev (trimLeftSpace 0 (bytes s))))).

Definition HasPrefix (s pre : string) : bool := String.prefix pre s.

Definition HasSuffix (s suf : string) : bool :=
  String.prefix (str (rev (bytes suf))) (str (rev (bytes s))).

(** [strings.Contains]. *)
Fixpoint Contains (s sub : string) : bool :=
  String.prefix sub s ||
  match s with
  | EmptyString => false
  | String _ rest => Contains rest sub
  end.

(** [strings.ContainsAny s chars] for a set [chars] of ASCII characters:
    an ASCII byte of a Go string is always a rune of its own, so the
    search by runes is a search by bytes. *)
Definition ContainsAny (s : string) (chars : string) : bool :=
  existsb (fun c => existsb (Ascii.eqb c) (bytes chars)) (bytes s).

(** [strings.FieldsFunc s f] for a predicate [f] that holds of ASCII
    runes only: the maximal runs of bytes on which [f] fails. *)
Fixpoint fieldsFrom (f : ascii -> bool) (cur : list ascii) (s : list ascii)
  : list string :=
  match s with
  | [] => match cur with [] => [] | _ => [str (rev cur)] end
  | c :: rest =>
    if f c
    then match cur with
         | [] => fieldsFrom f [] rest
         | _ => str (rev cur) :: fieldsFrom f [] rest
         end
    else fieldsFrom f (c :: cur) rest
  end.

Definition FieldsFunc (s : string) (f : ascii -> bool) : list string :=
  fieldsFrom f [] (bytes s).

(** [strings.Join parts ""]. *)
Definition Join (parts : list string) : string :=
  fold_right String.append "" parts.

(** [strings.ReplaceAll s old new] for one-byte [old] and [new]. *)
Definition ReplaceAll (s : string) (old new : ascii) : string :=
  str (map (fun c => if Ascii.eqb c old then new else c) (bytes s)).

(** [strings.Trim s cutset] for a cutset of one ASCII byte. *)
Fixpoint trimLeftByte (c : ascii) (s : list ascii) : list ascii :=
  match s with
  | x :: rest => if Ascii.eqb x c then trimLeftByte c rest else s
  | [] => []
  end.

Definition Trim (s : string) (c : ascii) : string :=
  str (rev (trimLeftByte c (rev (trimLeftByte c (bytes s))))).

(** The slices [s[:1]] and [s[1:]] of a non-empty string. *)
Definition first1 (s : string) : string :=
  match s with String c _ => String c "" | EmptyString => "" end.

Definition from1 (s : string) : string :=
  match s with String _ rest => rest | EmptyString => "" end.

(** [strings.Split s sep] for a separator of one byte: the pieces of [s]
    between the occurrences of [sep], so one piece more than there are
    occurrences.  [cur] holds, last byte first, the piece being read. *)
Fixpoint splitFrom (sep : ascii) (cur : list ascii) (s : list ascii) : list string :=
  match s with
  | [] => [str (rev cur)]
  | c :: rest =>
    if Ascii.eqb c sep then str (rev cur) :: splitFrom sep [] rest
    else splitFrom sep (c :: cur) rest
  end.

Definition Split (s : string) (sep : ascii) : list string :=
  splitFrom sep [] (bytes s).

Fixpoint startsWith (pre s : list ascii) : bool :=
  match pre, s with
  | [], _ => true
  | p :: pre', c :: s' => Ascii.eqb p c && startsWith pre' s'
  | _ :: _, [] => false
  end.

(** [strings.ReplaceAll s old new] for a non-empty [old] of any length:
    the occurrences of [old] are found from left to right and do not
    overlap.  [skip] counts the bytes of [s] that still belong to the
    occurrence replaced last. *)
Fixpoint replaceFrom (old new : list ascii) (skip : nat) (s : list ascii) : list ascii :=
  match s with
  | [] => []
  | c :: rest =>
    match skip with
    | S k => replaceFrom old new k rest
    | O =>
      if startsWith old s
      then new ++ replaceFrom old new (Nat.pred (length old)) rest
      else c :: replaceFrom old new 0 rest
    end
  end.

Definition ReplaceAllString (s old new : string) : string :=
  str (replaceFrom (bytes old) (bytes new) 0 (bytes s)).

End strings.

Example TrimSpace_ascii : strings.TrimSpace "  a b	 " = "a b".
Proof. reflexivity. Qed.

Example TrimSpace_ideographic :
  strings.TrimSpace (String "227" (String "128" (String "128" "x"))) = "x".
Proof. reflexivity. Qed.

Example ToUpper_invalid_byte `{CaseTables} :
  strings.ToUpper (String "195" "") = String "239" (String "191" (String "189" "")).
Proof.
  unfold strings.ToUpper, strings.Map. simpl. unfold unicode.ToUpper. simpl.
  rewrite upperCase_RuneError. reflexivity.
Qed.

(** ** Data model (main.go, lines 18-43 and 159-163) *)

Inductive Orientation := OrientationHorizontal | OrientationVertical.

Inductive FieldFlag := FieldFlagAll | FieldFlagServer | FieldFlagClient | FieldFlagNone.

Record Field := mkField {
  RawName : string;
  Name : string;
  RawType : string;
  GoType : string;
  Col : Z;
  Flag : FieldFlag;
  Exported : bool;
  IsComment : bool
}.

Record HeaderSpec := mkHeaderSpec {
  HeaderRows : Z;
  HOrientation : Orientation;
  DefineRow : Z   (* 1-based row number in the sheet *)
}.

(** The errors of the run.  The code builds them with [fmt.Errorf] and
    [errors.New]; each constructor stands for one message format and keeps
    the arguments of the format.  The names follow the taxonomy of the
    specification. *)
Inductive error :=
| HeaderDetectionError                                    (* "cannot detect header" *)
| UnsupportedOrientationError (origin : string)           (* "%s: vertical orientation (A1=2) is not supported yet" *)
| DefineRowOutOfRange (defineRow : Z)                     (* "define row %d out of range" *)
| InvalidFieldDefinitionError (cell : string) (row : Z)   (* "invalid field def %q at row %d" *)
| InvalidFlagError (exportFlag : string)                  (* "invalid --flag %q (expect server|client)" *)
| UnsupportedTypeError (rawType : string)                 (* "unsupported type %q" *)
| EmptySchemaError                                        (* "no exported fields found" *)
| EmptySheetNameError (origin : string)                   (* "%s: empty sheet name" *)
| DuplicateKeyError (jsonKey origin prev : string)        (* "duplicate sheet key %q from %s (already used by %s)" *)
| AtoiError (s : string)                                  (* the error of strconv.Atoi *)
| ParseFloatError (s : string)                            (* the error of strconv.ParseFloat *)
| ParseBoolError (s : string)                             (* the error of strconv.ParseBool *)
| UnmarshalError (s : string)                             (* the error of json.Unmarshal *)
| CellParseError (row col : Z) (rawName : string) (cause : error)  (* "row %d col %d (%s): %w" *)
| OriginError (origin : string) (cause : error).          (* "%s: %w" *)

Inductive result (A : Type) :=
| Ok (a : A)
| Err (e : error).
Arguments Ok {A} a.
Arguments Err {A} e.

(** Fail-fast sequencing: the first error ends the computation. *)
#[global] Instance result_bind : MBind result := fun A B k r =>
  match r with
  | Ok a => k a
  | Err e => Err e
  end.

Definition len {A} (l : list A) : Z := Z.of_nat (length l).

(** [l[i]] for an index the code has checked to be in range. *)
Definition index {A} (d : A) (l : list A) (i : Z) : A := nth (Z.to_nat i) l d.

(** A [switch] case with several values. *)
Definition oneOf (s : string) (cases : list string) : bool :=
  existsb (String.eqb s) cases.

(** ** Decoded values *)

(** A Go slice value: [nil], or a (possibly empty) sequence. *)
Inductive slice (A : Type) :=
| SliceNil
| Slice (elems : list A).
Arguments SliceNil {A}.
Arguments Slice {A} elems.

Abbreviation float64 := spec_float.

(** The dynamic values ([any]) that [parseCellValue] returns. *)
Inductive value :=
| VInt (n : Z)                       (* int *)
| VFloat (f : float64)               (* float64 *)
| VBool (b : bool)                   (* bool *)
| VString (s : string)               (* string *)
| VInts (v : slice Z)                (* []int *)
| VIntss (v : slice (slice Z)).      (* [][]int *)

(** ** Package regexp: the classes of the field pattern *)

Module regexp.

(** The character classes of [fieldRe].  In Go's regexp syntax [\s] is
    the ASCII class of tab, newline, form feed, carriage return, space. *)
Definition isSpace (c : ascii) : bool :=
  let b := utf8.byteval c in
  (b =? 9) || (b =? 10) || (b =? 12) || (b =? 13) || (b =? 32).

Definition isLetter (c : ascii) : bool :=
  let b := utf8.byteval c in utf8.between 65 b 90 || utf8.between 97 b 122.

Definition isDigit (c : ascii) : bool := utf8.between 48 (utf8.byteval c) 57.

(** [[A-Za-z_]] and [[A-Za-z0-9_]]. *)
Definition isNameStart (c : ascii) : bool := isLetter c || Ascii.eqb c "_".
Definition isNameChar (c : ascii) : bool := isNameStart c || isDigit c.

(** [[^,\s]]: every rune but the comma and the [\s] class.  The bytes of
    a rune from U+0080 on (and a byte that is no UTF-8) are none of
    these, so the class is read byte by byte. *)
Definition isTypeChar (c : ascii) : bool := negb (Ascii.eqb c "," || isSpace c).

(** [[sc]]. *)
Definition isFlagChar (c : ascii) : bool := Ascii.eqb c "s" || Ascii.eqb c "c".

(** The longest prefix of [s] in the class [p], and what follows it. *)
Fixpoint span (p : ascii -> bool) (s : list ascii) : list ascii * list ascii :=
  match s with
  | c :: rest =>
    if p c then let '(a, b) := span p rest in (c :: a, b) else ([], s)
  | [] => ([], [])
  end.

Definition skipSpace (s : list ascii) : list ascii := snd (span isSpace s).

End regexp.

(** ** strconv *)

Module strconv.

Definition digitsValue (ds : list ascii) : Z :=
  fold_left (fun acc c => 10 * acc + (utf8.byteval c - 48)) ds 0.

Definition allDigits (ds : list ascii) : bool :=
  negb (Nat.eqb (length ds) 0) && forallb regexp.isDigit ds.

Definition inInt64 (z : Z) : bool :=
  (- 9223372036854775808 <=? z) && (z <=? 9223372036854775807).

(** [strconv.Atoi]: an optional sign and decimal digits, in the range of
    the 64-bit [int]. *)
Definition Atoi (s : string) : option Z :=
  let '(neg, ds) :=
    match strings.bytes s with
    | "-"%char :: ds => (true, ds)
    | "+"%char :: ds => (false, ds)
    | ds => (false, ds)
    end in
  if allDigits ds then
    let z := if neg then - digitsValue ds else digitsValue ds in
    if inInt64 z then Some z else None
  else None.

(** [strconv.ParseBool]. *)
Definition ParseBool (s : string) : option bool :=
  if oneOf s ["1"; "t"; "T"; "TRUE"; "true"; "True"] then Some true
  else if oneOf s ["0"; "f"; "F"; "FALSE"; "false"; "False"] then Some false
  else None.

End strconv.

(** ** encoding/json, for the targets [*[]int] and [*[][]int]

    [json.Unmarshal] first checks that the whole text is one JSON value
    and then stores it in the target.  For these two targets a text is
    stored without error only if it is built from brackets, commas,
    integer literals, [null] and JSON white space: a string, [true],
    [false], a number with a fraction or an exponent or outside the range
    of int64 is either a syntax error or an [UnmarshalTypeError], and
    both end in an error.  [parseBraceArrayJSON] has replaced every brace
    before the call, so no object can occur. *)
Module json.

Inductive token := LBrack | RBrack | Comma | TNull | TNum (z : Z) | TBad.

#[warnings="-register-all"]
Inductive t := JNull | JNum (z : Z) | JArr (elems : list t).

Definition isSpace (c : ascii) : bool :=
  let b := utf8.byteval c in (b =? 32) || (b =? 9) || (b =? 10) || (b =? 13).

(** A JSON integer literal: an optional minus sign, then either the
    single digit 0 or digits that do not start with 0. *)
Definition intLiteral (a : list ascii) : option Z :=
  let '(neg, ds) :=
    match a with
    | "-"%char :: ds => (true, ds)
    | ds => (false, ds)
    end in
  match ds with
  | [] => None
  | d0 :: more =>
    if strconv.allDigits ds && (negb (Ascii.eqb d0 "0") || Nat.eqb (length more) 0)
    then let z := if neg then - strconv.digitsValue ds else strconv.digitsValue ds in
         if strconv.inInt64 z then Some z else None
    else None
  end.

(** The token of a maximal run [a] of characters that are neither white
    space nor brackets nor commas. *)
Definition atom (a : list ascii) : token :=
  if String.eqb (strings.str a) "null" then TNull
  else match intLiteral a with
       | Some z => TNum z
       | None => TBad
       end.

Definition flush (cur : list ascii) : list token :=
  match cur with
  | [] => []
  | _ :: _ => [atom (rev cur)]
  end.

(** [cur] holds, last byte first, the run being read. *)
Fixpoint tokenize (cur : list ascii) (s : list ascii) : list token :=
  match s with
  | [] => flush cur
  | c :: rest =>
    if isSpace c then flush cur ++ tokenize [] rest
    else if Ascii.eqb c "[" then flush cur ++ LBrack :: tokenize [] rest
    else if Ascii.eqb c "]" then flush cur ++ RBrack :: tokenize [] rest
    else if Ascii.eqb c "," then flush cur ++ Comma :: tokenize [] rest
    else tokenize (c :: cur) rest
  end.

(** What may come next inside an array. *)
Inductive expect :=
| ValueOrClose    (* after the opening bracket *)
| ValueOnly       (* after a comma *)
| SepOrClose.     (* after a value *)

(** Inside an array: [cur] holds its elements so far (last first),
    [stack] those of the arrays around it. *)
Fixpoint parseArray (stack : list (list t)) (cur : list t) (e : expect)
    (toks : list token) : option t :=
  match toks with
  | [] => None
  | tok :: rest =>
    match tok, e with
    | TBad, _ => None
    | LBrack, SepOrClose => None
    | LBrack, _ => parseArray (cur :: stack) [] ValueOrClose rest
    | RBrack, ValueOnly => None
    | RBrack, _ =>
      let v := JArr (rev cur) in
      match stack with
      | [] => match rest with [] => Some v | _ :: _ => None end
      | parent :: stack' => parseArray stack' (v :: parent) SepOrClose rest
      end
    | Comma, SepOrClose => parseArray stack cur ValueOnly rest
    | Comma, _ => None
    | TNull, SepOrClose => None
    | TNull, _ => parseArray stack (JNull :: cur) SepOrClose rest
    | TNum _, SepOrClose => None
    | TNum z, _ => parseArray stack (JNum z :: cur) SepOrClose rest
    end
  end.

Definition parse (s : string) : option t :=
  match tokenize [] (strings.bytes s) with
  | [TNull] => Some JNull
  | [TNum z] => Some (JNum z)
  | LBrack :: rest => parseArray [] [] ValueOrClose rest
  | _ => None
  end.

(** Storing a value in an [int]: [null] leaves the element as it is,
    which for an element of a slice just grown is 0. *)
Definition toInt (j : t) : option Z :=
  match j with
  | JNum z => Some z
  | JNull => Some 0
  | JArr _ => None
  end.

(** Storing a value in a slice: [null] makes it [nil]; an array makes it
    a slice that is not [nil], also when the array is empty. *)
Definition toSlice {A} (elem : t -> option A) (j : t) : option (slice A) :=
  match j with
  | JArr elems => Slice <$> mapM elem elems
  | JNull => Some SliceNil
  | JNum _ => None
  end.

(** [json.Unmarshal([]byte(s), out)] for [out] of the type that [store]
    fills. *)
Definition Unmarshal {A} (store : t -> option A) (s : string) : option A :=
  j ← parse s; store j.

End json.

Example Unmarshal_ints : json.Unmarshal (json.toSlice json.toInt) "[1, -2,3 ]" = Some (Slice [1; -2; 3]).
Proof. reflexivity. Qed.

Example Unmarshal_trailing_comma : json.Unmarshal (json.toSlice json.toInt) "[1,]" = None.
Proof. reflexivity. Qed.

Example Unmarshal_fraction : json.Unmarshal (json.toSlice json.toInt) "[1.5]" = None.
Proof. reflexivity. Qed.

Example Unmarshal_nested_null :
  json.Unmarshal (json.toSlice (json.toSlice json.toInt)) "[[1],null,[]]"
  = Some (Slice [Slice [1]; SliceNil; Slice []]).
Proof. reflexivity. Qed.

(** * The program *)

Section Program.

Context {T : CaseTables}.

(** ** Names (lines 45-61 and 467-484) *)

Definition lowerFirst (s : string) : string :=
  if String.eqb s "" then s
  else strings.ToLower (strings.first1 s) +:+ strings.from1 s.

Definition pluralizeTypeName (typeName : string) : string :=
  if String.eqb typeName "" then typeName
  else if strings.HasSuffix typeName "s" || strings.HasSuffix typeName "x"
          || strings.HasSuffix typeName "z" || strings.HasSuffix typeName "ch"
          || strings.HasSuffix typeName "sh"
  then typeName +:+ "es"
  else typeName +:+ "s".

Definition isSeparator (c : ascii) : bool :=
  Ascii.eqb c "_" || Ascii.eqb c "-".

(** The body of the loop over [parts] in [exportName]. *)
Definition capitalizePart (p : string) : string :=
  if String.eqb p "" then p
  else strings.ToUpper (strings.first1 p) +:+ strings.ToLower (strings.from1 p).

Definition exportName (name : string) : string :=
  if String.eqb name "" then name
  else if negb (strings.ContainsAny name "_-")
  then strings.ToUpper (strings.first1 name) +:+ strings.from1 name
  else strings.Join (map capitalizePart (strings.FieldsFunc name isSeparator)).

(** ** TypeMapper (lines 486-539) *)

Definition mapGoType (t : string) : option string :=
  let l := strings.ToLower t in
  if oneOf l ["int"; "int32"; "int64"] then Some "int"
  else if oneOf l ["int[]"] then Some "[]int"
  else if oneOf l ["int[][]"] then Some "[][]int"
  else if oneOf l ["float"; "float32"; "float64"] then Some "float64"
  else if oneOf l ["bool"] then Some "bool"
  else if oneOf l ["string"] then Some "string"
  else None.

Definition mapCSType (t : string) : option string :=
  let l := strings.ToLower t in
  if oneOf l ["int"; "int32"; "int64"] then Some "int"
  else if oneOf l ["int[]"] then Some "List<int>"
  else if oneOf l ["int[][]"] then Some "List<List<int>>"
  else if oneOf l ["float"; "float32"; "float64"] then Some "double"
  else if oneOf l ["bool"] then Some "bool"
  else if oneOf l ["string"] then Some "string"
  else None.

Definition mapTSType (t : string) : option string :=
  let l := strings.ToLower t in
  if oneOf l ["int"; "int32"; "int64"; "float"; "float32"; "float64"] then Some "number"
  else if oneOf l ["int[]"] then Some "number[]"
  else if oneOf l ["int[][]"] then Some "number[][]"
  else if oneOf l ["bool"] then Some "boolean"
  else if oneOf l ["string"] then Some "string"
  else None.

(** ** HeaderInspector (lines 360-388) *)

Definition rowHasFieldDefs (row : list string) : bool :=
  existsb (fun c => strings.Contains c "#") row.

Definition detectHeaderSpec (rows : list (list string)) : result HeaderSpec :=
  if (3 <=? len rows) && rowHasFieldDefs (index [] rows 2) then
    let a1 := match index [] rows 0 with
              | [] => ""
              | c :: _ => strings.TrimSpace c
              end in
    let ori := if String.eqb a1 "2" then OrientationVertical
               else OrientationHorizontal in
    Ok (mkHeaderSpec 3 ori 3)
  else if (2 <=? len rows) && rowHasFieldDefs (index [] rows 1) then
    Ok (mkHeaderSpec 2 OrientationHorizontal 2)
  else if (1 <=? len rows) && rowHasFieldDefs (index [] rows 0) then
    Ok (mkHeaderSpec 1 OrientationHorizontal 1)
  else Err HeaderDetectionError.

Example exportName_data_id : exportName "data_id" = "DataId".
Proof. reflexivity. Qed.

Example exportName_upper : exportName "DATA_ID" = "DataId".
Proof. reflexivity. Qed.

Example pluralize_examples :
  map pluralizeTypeName ["Item"; "Quest"; "Box"; "Bus"]
  = ["Items"; "Quests"; "Boxes"; "Buses"].
Proof. reflexivity. Qed.

(** ** FieldDefinitionParser (lines 390-465) *)

(** [fieldRe.FindStringSubmatch cell]: the submatches 1, 2 and 3 of

      ^ \s* ([A-Za-z_][A-Za-z0-9_]* ) \s* # \s* ([^,\s]+) \s* (?: , \s* ([sc]) )? \s* $

    (the expression of line 390, here with blanks between its parts),

    or [None] where Go returns [nil].  Every repetition of the expression
    is followed by a character outside its class (or by the end), so the
    leftmost-first match takes each of them as long as possible; a group
    that took part in no match reads as the empty string. *)
Definition fieldRe (cell : string) : option (string * string * string) :=
  let s0 := regexp.skipSpace (strings.bytes cell) in
  let '(name, s1) := regexp.span regexp.isNameChar s0 in
  match name with
  | [] => None
  | n0 :: _ =>
    if negb (regexp.isNameStart n0) then None else
    match regexp.skipSpace s1 with
    | "#"%char :: s2 =>
      let '(ty, s3) := regexp.span regexp.isTypeChar (regexp.skipSpace s2) in
      match ty with
      | [] => None
      | _ :: _ =>
        match regexp.skipSpace s3 with
        | [] => Some (strings.str name, strings.str ty, "")
        | ","%char :: s4 =>
          match regexp.skipSpace s4 with
          | f :: s5 =>
            if regexp.isFlagChar f
            then match regexp.skipSpace s5 with
                 | [] => Some (strings.str name, strings.str ty, String f "")
                 | _ :: _ => None
                 end
            else None
          | [] => None
          end
        | _ :: _ => None
        end
      end
    | _ => None
    end
  end.

Example fieldRe_plain : fieldRe "cid#int" = Some ("cid", "int", "").
Proof. reflexivity. Qed.

Example fieldRe_flag : fieldRe "dt # int[] , s" = Some ("dt", "int[]", "s").
Proof. reflexivity. Qed.

Example fieldRe_dash : fieldRe "cid-int" = None.
Proof. reflexivity. Qed.

Example fieldRe_digit : fieldRe "1a#int" = None.
Proof. reflexivity. Qed.

Example fieldRe_bad_flag : fieldRe "a#int,x" = None.
Proof. reflexivity. Qed.

(** The [switch] on the flag character (lines 420-430). *)
Definition flagOf (flagCh : string) : FieldFlag :=
  if String.eqb flagCh "" then FieldFlagAll
  else if String.eqb flagCh "s" then FieldFlagServer
  else if String.eqb flagCh "c" then FieldFlagClient
  else FieldFlagAll.

Definition FieldFlag_eqb (a b : FieldFlag) : bool :=
  match a, b with
  | FieldFlagAll, FieldFlagAll | FieldFlagServer, FieldFlagServer
  | FieldFlagClient, FieldFlagClient | FieldFlagNone, FieldFlagNone => true
  | _, _ => false
  end.

(** What the visibility filter (lines 432-445) does with a field. *)
Inductive filtered := Kept | Dropped | BadFilter.

Definition applyFilter (exportFlag : string) (ff : FieldFlag) : filtered :=
  if String.eqb exportFlag "" then Kept
  else if String.eqb exportFlag "server"
  then (if FieldFlag_eqb ff FieldFlagClient then Dropped else Kept)
  else if String.eqb exportFlag "client"
  then (if FieldFlag_eqb ff FieldFlagServer then Dropped else Kept)
  else BadFilter.

(** How one turn of the loop over the cells ends: with [continue], with
    the [append] at its end, or with [return nil, err]. *)
Inductive turn :=
| Continue
| Append (f : Field)
| Return (e : error).

(** The body of the loop over the define row (lines 399-459), for the
    cell [rawCell] at index [colIdx]. *)
Definition parseCell (defineRow : Z) (exportFlag : string) (colIdx : Z)
    (rawCell : string) : turn :=
  let cell := strings.TrimSpace rawCell in
  if String.eqb cell "" then Continue else
  let lower := strings.ToLower cell in
  if strings.Contains lower "#comment" || strings.Contains lower "#common"
  then Continue else
  match fieldRe cell with
  | None => Return (InvalidFieldDefinitionError cell defineRow)
  | Some (rawName, rawType, flagCh) =>
    if String.eqb (strings.ToLower rawType) "comment"
       || String.eqb (strings.ToLower rawType) "common"
    then Continue else
    let ff := flagOf flagCh in
    match applyFilter exportFlag ff with
    | Dropped => Continue
    | BadFilter => Return (InvalidFlagError exportFlag)
    | Kept =>
      match mapGoType rawType with
      | None => Return (UnsupportedTypeError rawType)
      | Some goType =>
        Append (mkField rawName (exportName rawName) rawType goType colIdx ff
                        true false)
      end
    end
  end.

(** The loop itself: [colIdx] is the index of the first cell of [row],
    [fields] the slice built so far. *)
Fixpoint parseCells (defineRow : Z) (exportFlag : string) (colIdx : Z)
    (row : list string) (fields : list Field) : result (list Field) :=
  match row with
  | [] => Ok fields
  | rawCell :: rest =>
    match parseCell defineRow exportFlag colIdx rawCell with
    | Continue => parseCells defineRow exportFlag (colIdx + 1) rest fields
    | Append f => parseCells defineRow exportFlag (colIdx + 1) rest (fields ++ [f])%list
    | Return e => Err e
    end
  end.

Definition parseFieldsFromDefineRow (rows : list (list string)) (defineRow : Z)
    (exportFlag : string) : result (list Field) :=
  if (defineRow <=? 0) || (len rows <? defineRow)
  then Err (DefineRowOutOfRange defineRow)
  else
    fields ← parseCells defineRow exportFlag 0 (index [] rows (defineRow - 1)) [];
    if len fields =? 0 then Err EmptySchemaError else Ok fields.

Example parse_two_cells :
  parseFieldsFromDefineRow [["id"; "count"]; ["cid#int"; "count#int,c"]] 2 ""
  = Ok [mkField "cid" "Cid" "int" "int" 0 FieldFlagAll true false;
        mkField "count" "Count" "int" "int" 1 FieldFlagClient true false].
Proof. reflexivity. Qed.

(** ** Text constants that a Rocq string literal cannot hold *)

Definition nl : string := String "010" "".       (* "\n" *)
Definition tab : string := String "009" "".      (* "\t" *)
Definition dquote : ascii := "034".              (* the double quote *)
Definition dq : string := String dquote "".

Section Pipeline.

(** [strconv.ParseFloat s 64] rounds a decimal or hexadecimal literal to
    the nearest IEEE 754 double; its result ([None] for its error) is
    taken as given. *)
Variable ParseFloat : string -> option float64.

(** ** CellValueDecoder (lines 800-878) *)

Definition parseBraceArrayJSON {A} (store : json.t -> option A) (s : string)
  : result A :=
  let s := strings.TrimSpace s in
  let s := strings.Trim s dquote in
  let s := if String.eqb s "" || String.eqb s "{}" then "[]" else s in
  (* Convert Lua-like braces to JSON arrays. *)
  let s := strings.ReplaceAll s "{" "[" in
  let s := strings.ReplaceAll s "}" "]" in
  let s := if negb (strings.HasPrefix (strings.TrimSpace s) "[")
           then "[" +:+ s +:+ "]" else s in
  match json.Unmarshal store s with
  | Some v => Ok v
  | None => Err (UnmarshalError s)
  end.

Definition parseCellValue (rawType : string) (s : string) : result value :=
  let l := strings.ToLower rawType in
  if String.eqb s "" then
    if oneOf l ["int"; "int32"; "int64"] then Ok (VInt 0)
    else if oneOf l ["int[]"] then Ok (VInts (Slice []))
    else if oneOf l ["int[][]"] then Ok (VIntss (Slice []))
    else if oneOf l ["float"; "float32"; "float64"] then Ok (VFloat (S754_zero false))
    else if oneOf l ["bool"] then Ok (VBool false)
    else if oneOf l ["string"] then Ok (VString "")
    else Err (UnsupportedTypeError rawType)
  else
    if oneOf l ["int"; "int32"; "int64"] then
      match strconv.Atoi s with
      | Some v => Ok (VInt v)
      | None => Err (AtoiError s)
      end
    else if oneOf l ["int[]"] then
      v ← parseBraceArrayJSON (json.toSlice json.toInt) s; Ok (VInts v)
    else if oneOf l ["int[][]"] then
      v ← parseBraceArrayJSON (json.toSlice (json.toSlice json.toInt)) s; Ok (VIntss v)
    else if oneOf l ["float"; "float32"; "float64"] then
      match ParseFloat s with
      | Some v => Ok (VFloat v)
      | None => Err (ParseFloatError s)
      end
    else if oneOf l ["bool"] then
      let ls := strings.ToLower s in
      if String.eqb ls "1" then Ok (VBool true)
      else if String.eqb ls "0" then Ok (VBool false)
      else match strconv.ParseBool ls with
           | Some v => Ok (VBool v)
           | None => Err (ParseBoolError ls)
           end
    else if oneOf l ["string"] then Ok (VString s)
    else Err (UnsupportedTypeError rawType).

(** ** Data rows (lines 764-798) *)

Definition isEmptyRow (row : list string) : bool :=
  forallb (fun c => String.eqb (strings.TrimSpace c) "") row.

(** The cell of [row] that a field reads (lines 776-779). *)
Definition cellOf (row : list string) (field : Field) : string :=
  if (0 <=? Col field) && (Col field <? len row)
  then strings.TrimSpace (index "" row (Col field))
  else "".

(** The loop over the fields for the row of 0-based index [r]; [obj] is
    the map being filled. *)
Fixpoint readFields (r : Z) (row : list string) (fields : list Field)
    (obj : gmap string value) : result (gmap string value) :=
  match fields with
  | [] => Ok obj
  | field :: rest =>
    match parseCellValue (RawType field) (cellOf row field) with
    | Err e => Err (CellParseError (r + 1) (Col field + 1) (RawName field) e)
    | Ok v => readFields r row rest (<[RawName field := v]> obj)
    end
  end.

(** The loop over the rows from index [r] on; [items] is the slice built
    so far. *)
Fixpoint readRows (r : Z) (rows : list (list string)) (fields : list Field)
    (items : list (gmap string value)) : result (list (gmap string value)) :=
  match rows with
  | [] => Ok items
  | row :: rest =>
    if isEmptyRow row then readRows (r + 1) rest fields items
    else
      obj ← readFields r row fields ∅;
      readRows (r + 1) rest fields (items ++ [obj])%list
  end.

Definition readHorizontalItems (rows : list (list string)) (dataStartRow : Z)
    (fields : list Field) : result (list (gmap string value)) :=
  let dataStartRow := if dataStartRow <=? 0 then 1 else dataStartRow in
  readRows (dataStartRow - 1) (drop (Z.to_nat (dataStartRow - 1)) rows) fields [].

(** ** SchemaAggregator (lines 210-245) *)

Record Aggregate := mkAggregate {
  schemas : gmap string (list Field);                  (* typeName -> fields *)
  jsonPayload : gmap string (list (gmap string value)); (* jsonKey -> []object *)
  seenKeys : gmap string string;                       (* jsonKey -> origin *)
  orderedTypeNames : list string                       (* stable output order *)
}.

Definition emptyAggregate : Aggregate := mkAggregate ∅ ∅ ∅ [].

Definition jsonKeyOf (typeName : string) : string :=
  lowerFirst (pluralizeTypeName typeName).

(** [addSheet] with the two stages it calls after header detection left
    open: [parse] and [read] stand for [parseFieldsFromDefineRow] and
    [readHorizontalItems].  [exitErr] ends the run, so an error is the
    result of the whole closure. *)
Definition addSheetWith
    (parse : list (list string) -> Z -> string -> result (list Field))
    (read : list (list string) -> Z -> list Field -> result (list (gmap string value)))
    (exportFlag : string) (agg : Aggregate)
    (origin sheetName : string) (rows : list (list string)) : result Aggregate :=
  match detectHeaderSpec rows with
  | Err e => Err (OriginError origin e)
  | Ok spec =>
    match HOrientation spec with
    | OrientationVertical => Err (UnsupportedOrientationError origin)
    | OrientationHorizontal =>
      match parse rows (DefineRow spec) exportFlag with
      | Err e => Err (OriginError origin e)
      | Ok fields =>
        match read rows (DefineRow spec + 1) fields with
        | Err e => Err (OriginError origin e)
        | Ok items =>
          let typeName := exportName sheetName in
          if String.eqb typeName "" then Err (EmptySheetNameError origin) else
          let fieldName := pluralizeTypeName typeName in
          let jsonKey := lowerFirst fieldName in
          match seenKeys agg !! jsonKey with
          | Some prev => Err (DuplicateKeyError jsonKey origin prev)
          | None =>
            Ok (mkAggregate (<[typeName := fields]> (schemas agg))
                            (<[jsonKey := items]> (jsonPayload agg))
                            (<[jsonKey := origin]> (seenKeys agg))
                            (orderedTypeNames agg ++ [typeName])%list)
          end
        end
      end
    end
  end.

Definition addSheet := addSheetWith parseFieldsFromDefineRow readHorizontalItems.

(** A sheet as the row reader hands it over. *)
Record Sheet := mkSheet {
  sheetOrigin : string;
  sheetName : string;
  sheetRows : list (list string)
}.

(** The loop over the input (lines 247-272): sheets are added in order
    and the first error ends the run. *)
Fixpoint addSheets (exportFlag : string) (agg : Aggregate) (sheets : list Sheet)
  : result Aggregate :=
  match sheets with
  | [] => Ok agg
  | sh :: rest =>
    agg' ← addSheet exportFlag agg (sheetOrigin sh) (sheetName sh) (sheetRows sh);
    addSheets exportFlag agg' rest
  end.

End Pipeline.

(** ** CodeEmitters (lines 607-734)

    A [strings.Builder] is the text written so far: every loop takes it
    and returns it with the new text appended. *)

Definition TrimRightNewlines (s : string) : string :=
  strings.str (rev (strings.trimLeftByte "010" (rev (strings.bytes s)))).

(** *** Go *)

Definition goRootMember (b : string) (typeName : string) : string :=
  let fieldName := pluralizeTypeName typeName in
  let jsonKey := lowerFirst fieldName in
  b +:+ tab +:+ fieldName +:+ " []" +:+ typeName
    +:+ " `json:" +:+ dq +:+ jsonKey +:+ dq +:+ "`" +:+ nl.

Definition goField (b : string) (f : Field) : string :=
  b +:+ tab +:+ Name f +:+ " " +:+ GoType f
    +:+ " `json:" +:+ dq +:+ RawName f +:+ dq +:+ "`" +:+ nl.

Definition goType (schemas : gmap string (list Field)) (b : string)
    (typeName : string) : string :=
  let fields := schemas !!! typeName in
  let b := b +:+ "type " +:+ typeName +:+ " struct {" +:+ nl in
  let b := fold_left goField fields b in
  b +:+ "}" +:+ nl +:+ nl.

Definition generateGoBundle (pkg rootName : string) (orderedTypeNames : list string)
    (schemas : gmap string (list Field)) : result string :=
  let b := "package " +:+ pkg +:+ nl +:+ nl in
  (* Root config *)
  let b := b +:+ "type " +:+ rootName +:+ " struct {" +:+ nl in
  let b := fold_left goRootMember orderedTypeNames b in
  let b := b +:+ "}" +:+ nl +:+ nl in
  (* Types *)
  let b := fold_left (goType schemas) orderedTypeNames b in
  Ok (TrimRightNewlines b +:+ nl).

(** *** C# *)

Definition csRootMember (b : string) (typeName : string) : string :=
  let fieldName := pluralizeTypeName typeName in
  let jsonKey := lowerFirst fieldName in
  b +:+ "    [JsonPropertyName(" +:+ dq +:+ jsonKey +:+ dq +:+ ")]" +:+ nl
    +:+ "    public List<" +:+ typeName +:+ "> " +:+ fieldName
    +:+ " { get; set; }" +:+ nl +:+ nl.

Fixpoint csFields (b : string) (fields : list Field) : result string :=
  match fields with
  | [] => Ok b
  | f :: rest =>
    match mapCSType (RawType f) with
    | None => Err (UnsupportedTypeError (RawType f))
    | Some csType =>
      csFields (b +:+ "    [JsonPropertyName(" +:+ dq +:+ RawName f +:+ dq +:+ ")]" +:+ nl
                  +:+ "    public " +:+ csType +:+ " " +:+ Name f
                  +:+ " { get; set; }" +:+ nl +:+ nl) rest
    end
  end.

Fixpoint csTypes (schemas : gmap string (list Field)) (b : string)
    (typeNames : list string) : result string :=
  match typeNames with
  | [] => Ok b
  | typeName :: rest =>
    let fields := schemas !!! typeName in
    b ← csFields (b +:+ "public class " +:+ typeName +:+ nl +:+ "{" +:+ nl) fields;
    csTypes schemas (b +:+ "}" +:+ nl +:+ nl) rest
  end.

Definition generateCSBundle (rootName : string) (orderedTypeNames : list string)
    (schemas : gmap string (list Field)) : result string :=
  let b := "using System.Collections.Generic;" +:+ nl
           +:+ "using System.Text.Json.Serialization;" +:+ nl +:+ nl in
  let b := b +:+ "public class " +:+ rootName +:+ nl +:+ "{" +:+ nl in
  let b := fold_left csRootMember orderedTypeNames b in
  let b := b +:+ "}" +:+ nl +:+ nl in
  b ← csTypes schemas b orderedTypeNames;
  Ok (TrimRightNewlines b +:+ nl).

(** *** TypeScript *)

Fixpoint tsFields (b : string) (fields : list Field) : result string :=
  match fields with
  | [] => Ok b
  | f :: rest =>
    match mapTSType (RawType f) with
    | None => Err (UnsupportedTypeError (RawType f))
    | Some tsType =>
      tsFields (b +:+ "  " +:+ RawName f +:+ ": " +:+ tsType +:+ ";" +:+ nl) rest
    end
  end.

Fixpoint tsTypes (schemas : gmap string (list Field)) (b : string)
    (typeNames : list string) : result string :=
  match typeNames with
  | [] => Ok b
  | typeName :: rest =>
    let fields := schemas !!! typeName in
    b ← tsFields (b +:+ "export interface " +:+ typeName +:+ " {" +:+ nl) fields;
    tsTypes schemas (b +:+ "}" +:+ nl +:+ nl) rest
  end.

Definition tsRootMember (b : string) (typeName : string) : string :=
  let fieldName := pluralizeTypeName typeName in
  let jsonKey := lowerFirst fieldName in
  b +:+ "  " +:+ jsonKey +:+ ": " +:+ typeName +:+ "[];" +:+ nl.

Definition generateTSBundle (rootName : string) (orderedTypeNames : list string)
    (schemas : gmap string (list Field)) : result string :=
  b ← tsTypes schemas "" orderedTypeNames;
  let b := b +:+ "export interface " +:+ rootName +:+ " {" +:+ nl in
  let b := fold_left tsRootMember orderedTypeNames b in
  Ok (b +:+ "}" +:+ nl).

(** The fields that an emitter visits: those of the types it is given, in
    the order of [orderedTypeNames]. *)
Definition emittedFields (orderedTypeNames : list string)
    (schemas : gmap string (list Field)) : list Field :=
  concat (map (fun typeName => schemas !!! typeName) orderedTypeNames).

(** ** The emitters for one sheet (lines 541-605 and 736-762)

    The lines they write for a field are those of the bundle emitters. *)

Definition generateGo (pkg rootName itemName : string) (fields : list Field)
  : result string :=
  let b := "package " +:+ pkg +:+ nl +:+ nl in
  let b := b +:+ "type " +:+ rootName +:+ " struct {" +:+ nl
             +:+ tab +:+ "Items []" +:+ itemName +:+ nl
             +:+ "}" +:+ nl +:+ nl +:+ nl in
  let b := b +:+ "type " +:+ itemName +:+ " struct {" +:+ nl in
  let b := fold_left goField fields b in
  Ok (b +:+ "}" +:+ nl).

Definition generateCS (rootName itemName : string) (fields : list Field)
  : result string :=
  let b := "using System.Collections.Generic;" +:+ nl
           +:+ "using System.Text.Json.Serialization;" +:+ nl +:+ nl in
  let b := b +:+ "public class " +:+ rootName +:+ nl +:+ "{" +:+ nl
             +:+ "    public List<" +:+ itemName +:+ "> Items { get; set; }" +:+ nl
             +:+ "}" +:+ nl +:+ nl in
  let b := b +:+ "public class " +:+ itemName +:+ nl +:+ "{" +:+ nl in
  b ← csFields b fields;
  Ok (b +:+ "}" +:+ nl).

Definition generateTS (rootName itemName : string) (fields : list Field)
  : result string :=
  let b := "export interface " +:+ itemName +:+ " {" +:+ nl in
  b ← tsFields b fields;
  let b := b +:+ "}" +:+ nl +:+ nl in
  let b := b +:+ "export interface " +:+ rootName +:+ " {" +:+ nl
             +:+ "  Items: " +:+ itemName +:+ "[];" +:+ nl in
  Ok (b +:+ "}" +:+ nl).

(** ** The command line and the tab-separated input (lines 137-157 and 330-353) *)

Inductive inputError :=
| InvalidLangError (s : string)   (* "invalid --lang %q (expect go|cs|ts|all or comma-separated)" *)
| NoTargetsError (s : string)     (* "invalid --lang %q (no targets)" *)
| EmptyFileError (path : string). (* "%s: empty file" *)

(** [m[k]] for a [map[string]bool]: [false] where the key is missing. *)
Definition selected (m : gmap string bool) (k : string) : bool :=
  default false (m !! k).

(** The loop over the parts (lines 337-348). *)
Fixpoint langParts (s : string) (parts : list string) (out : gmap string bool)
  : inputError + gmap string bool :=
  match parts with
  | [] => inr out
  | p :: rest =>
    let p := strings.TrimSpace p in
    if String.eqb p "" then langParts s rest out
    else if oneOf p ["go"; "cs"; "ts"] then langParts s rest (<[p := true]> out)
    else inl (InvalidLangError s)
  end.

Definition parseLangs (s : string) : inputError + gmap string bool :=
  let s := strings.TrimSpace (strings.ToLower s) in
  if String.eqb s "" || String.eqb s "all"
  then inr {["go" := true; "cs" := true; "ts" := true]}
  else
    let parts := strings.Split s "," in
    match langParts s parts {["go" := false; "cs" := false; "ts" := false]} with
    | inl e => inl e
    | inr out =>
      if negb (selected out "go") && negb (selected out "cs") && negb (selected out "ts")
      then inl (NoTargetsError s)
      else inr out
    end.

(** The loop over the lines (lines 146-152); [rows] is the slice built so
    far. *)
Fixpoint tsvLines (lines : list string) (rows : list (list string))
  : list (list string) :=
  match lines with
  | [] => rows
  | line :: rest =>
    let line := strings.TrimSpace line in
    if String.eqb line "" then tsvLines rest rows
    else tsvLines rest (rows ++ [strings.Split line "009"])%list
  end.

(** [readTSVRows], from the bytes [b] that [os.ReadFile path] has
    returned. *)
Definition readTSVRows (path : string) (b : string)
  : inputError + list (list string) :=
  let s := strings.ReplaceAllString b (String "013" nl) nl in
  let s := strings.ReplaceAll s "013" "010" in
  let lines := strings.Split s "010" in
  let rows := tsvLines lines [] in
  if len rows =? 0 then inl (EmptyFileError path) else inr rows.

Example parseLangs_list :
  parseLangs " TS, go ,," = inr {["go" := true; "cs" := false; "ts" := true]}.
Proof. reflexivity. Qed.

Example parseLangs_all_in_list :
  parseLangs "go,all" = inl (InvalidLangError "go,all").
Proof. reflexivity. Qed.

Example readTSVRows_lines :
  readTSVRows "item.tsv"
    ("id" +:+ tab +:+ "n" +:+ String "013" nl +:+ nl
       +:+ tab +:+ "cid#int" +:+ tab +:+ "count#int" +:+ String "013" "1" +:+ tab +:+ "5")
  = inr [["id"; "n"]; ["cid#int"; "count#int"]; ["1"; "5"]].
Proof. reflexivity. Qed.

End Program.

(** * Properties *)

Section HeaderAndDecoder.

Context {T : CaseTables}.


(** ** Auxiliary facts on strings *)

Lemma oneOf_In (s : string) (cases : list string) :
  oneOf s cases = true <-> In s cases.
Proof.
  unfold oneOf. rewrite existsb_exists. split.
  - intros (x & Hin & Heq). apply String.eqb_eq in Heq. now subst.
  - intros Hin. exists s. split; [assumption | apply String.eqb_refl].
Qed.

Lemma oneOf_single (s c : string) : oneOf s [c] = true <-> s = c.
Proof. rewrite oneOf_In. simpl. intuition congruence. Qed.

Lemma Contains_char (c : ascii) (s : string) :
  strings.Contains s (String c "") = true <-> In c (strings.bytes s).
Proof.
  induction s as [| a s IH]; simpl.
  - split; [discriminate | tauto].
  - destruct (ascii_dec c a) as [-> | Hne].
    + destruct s; simpl; tauto.
    + rewrite IH. simpl. intuition congruence.
Qed.

Lemma bytes_app (a b : string) :
  strings.bytes (a +:+ b) = (strings.bytes a ++ strings.bytes b)%list.
Proof. induction a as [| c a IH]; simpl; [reflexivity | now rewrite IH]. Qed.

Lemma str_bytes (s : string) : strings.str (strings.bytes s) = s.
Proof. apply string_of_list_ascii_of_string. Qed.

Lemma bytes_str (l : list ascii) : strings.bytes (strings.str l) = l.
Proof. apply list_ascii_of_string_of_list_ascii. Qed.

Lemma isNameStart_isNameChar (c : ascii) :
  regexp.isNameStart c = true -> regexp.isNameChar c = true.
Proof. unfold regexp.isNameChar. now intros ->. Qed.

Lemma str_app (a b : list ascii) :
  strings.str (a ++ b)%list = strings.str a +:+ strings.str b.
Proof. induction a as [| c a IH]; simpl; [reflexivity | now rewrite IH]. Qed.

Lemma append_assoc (a b c : string) : (a +:+ b) +:+ c = a +:+ (b +:+ c).
Proof.
  rewrite <- (str_bytes ((a +:+ b) +:+ c)), <- (str_bytes (a +:+ b +:+ c)).
  now rewrite !bytes_app, app_assoc.
Qed.

Lemma append_empty (a : string) : a +:+ "" = a.
Proof.
  rewrite <- (str_bytes (a +:+ "")), bytes_app. simpl.
  now rewrite app_nil_r, str_bytes.
Qed.

(** A loop that appends one text for every element writes the
    concatenation of the texts. *)
Lemma fold_left_append {A} (step : string -> A -> string) (g : A -> string) (l : list A) :
  (forall b x, step b x = b +:+ g x) ->
  forall b, fold_left step l b = b +:+ strings.Join (map g l).
Proof.
  intros Hstep. induction l as [| x l IH]; intros b; simpl.
  - unfold strings.Join. simpl. now rewrite append_empty.
  - rewrite IH, Hstep, append_assoc. reflexivity.
Qed.

(** ** C7 and C8: the cell decoder on brace literals and on empty cells *)

(** C7. Decoding the text {1,2,3} for int[] gives the sequence 1, 2, 3;
    decoding {{1,2},{3,4}} for int[][] gives the sequence of the sequences
    1, 2 and 3, 4; decoding {} or the empty text for either array type
    gives an empty sequence. *)
Theorem C7_brace_literals (ParseFloat : string -> option float64) :
  parseCellValue ParseFloat "int[]" "{1,2,3}" = Ok (VInts (Slice [1; 2; 3]))
  /\ parseCellValue ParseFloat "int[][]" "{{1,2},{3,4}}"
     = Ok (VIntss (Slice [Slice [1; 2]; Slice [3; 4]]))
  /\ parseCellValue ParseFloat "int[]" "{}" = Ok (VInts (Slice []))
  /\ parseCellValue ParseFloat "int[]" "" = Ok (VInts (Slice []))
  /\ parseCellValue ParseFloat "int[][]" "{}" = Ok (VIntss (Slice []))
  /\ parseCellValue ParseFloat "int[][]" "" = Ok (VIntss (Slice [])).
Proof. repeat split; reflexivity. Qed.

(** C8. On the empty cell the decoder returns the zero value of the raw
    type, whatever the case of its letters: 0 for int, int32 and int64, an
    empty sequence that is not nil for int[] and int[][], 0.0 for float,
    float32 and float64, false for bool and the empty string for string;
    and these are all the raw types that the type tables support. *)
Theorem C8_empty_cell_zero_value (ParseFloat : string -> option float64)
    (rawType : string) :
  let l := strings.ToLower rawType in
  (In l ["int"; "int32"; "int64"] ->
     parseCellValue ParseFloat rawType "" = Ok (VInt 0))
  /\ (l = "int[]" -> parseCellValue ParseFloat rawType "" = Ok (VInts (Slice [])))
  /\ (l = "int[][]" -> parseCellValue ParseFloat rawType "" = Ok (VIntss (Slice [])))
  /\ (In l ["float"; "float32"; "float64"] ->
        parseCellValue ParseFloat rawType "" = Ok (VFloat (S754_zero false)))
  /\ (l = "bool" -> parseCellValue ParseFloat rawType "" = Ok (VBool false))
  /\ (l = "string" -> parseCellValue ParseFloat rawType "" = Ok (VString ""))
  /\ (is_Some (mapGoType rawType) <->
        In l ["int"; "int32"; "int64"; "int[]"; "int[][]";
              "float"; "float32"; "float64"; "bool"; "string"]).
Proof.
  intros l. unfold parseCellValue, mapGoType. fold l. simpl (String.eqb "" "").
  cbv iota.
  repeat split; intros H.
  - apply oneOf_In in H. now rewrite H.
  - subst l. now rewrite H.
  - subst l. now rewrite H.
  - simpl in H. destruct H as [H | [H | [H | []]]]; subst l; now rewrite <- H.
  - subst l. now rewrite H.
  - subst l. now rewrite H.
  - destruct H as [g H]. revert H.
    repeat match goal with
    | |- context [oneOf l ?cs] =>
      let E := fresh "E" in destruct (oneOf l cs) eqn:E;
      [apply oneOf_In in E; simpl in E; simpl; intuition | ]
    end.
    discriminate.
  - simpl in H.
    repeat (destruct H as [H | H]; [rewrite <- H; simpl; eauto |]).
    destruct H.
Qed.

(** ** C3 and C4: header detection *)

(** "At least [i+1] rows exist and the row of index [i] contains a cell
    with the character #." *)
Definition looksLikeDefineRow (rows : list (list string)) (i : nat) : Prop :=
  exists row cell,
    rows !! i = Some row /\ In cell row /\ In "#"%char (strings.bytes cell).

(** The trimmed cell at row 0, column 0; empty where there is no such
    cell. *)
Definition trimmedA1 (rows : list (list string)) : string :=
  match rows with
  | (c :: _) :: _ => strings.TrimSpace c
  | _ => ""
  end.

Lemma rowHasFieldDefs_spec (row : list string) :
  rowHasFieldDefs row = true <->
  exists cell, In cell row /\ In "#"%char (strings.bytes cell).
Proof.
  unfold rowHasFieldDefs. rewrite existsb_exists.
  split; intros (c & Hin & H); exists c; split; auto; now apply Contains_char.
Qed.

Definition defineRowTest (rows : list (list string)) (i : nat) : bool :=
  (Z.of_nat (S i) <=? len rows) && rowHasFieldDefs (index [] rows (Z.of_nat i)).

Lemma define_row_test (rows : list (list string)) (i : nat) :
  defineRowTest rows i = true <-> looksLikeDefineRow rows i.
Proof.
  unfold defineRowTest, looksLikeDefineRow, index, len. rewrite Nat2Z.id.
  rewrite andb_true_iff, Z.leb_le, rowHasFieldDefs_spec. split.
  - intros [Hlen (cell & Hin & Hc)].
    destruct (rows !! i) as [row |] eqn:E.
    + exists row, cell. rewrite (nth_lookup_Some _ _ _ _ E) in Hin. auto.
    + apply lookup_ge_None in E. lia.
  - intros (row & cell & E & Hin & Hc). split.
    + apply lookup_lt_Some in E. lia.
    + exists cell. rewrite (nth_lookup_Some _ _ _ _ E). auto.
Qed.

Lemma define_row_test_false (rows : list (list string)) (i : nat) :
  ~ looksLikeDefineRow rows i -> defineRowTest rows i = false.
Proof.
  intros H. apply not_true_is_false. now rewrite define_row_test.
Qed.

Lemma detectHeaderSpec_tests (rows : list (list string)) :
  detectHeaderSpec rows =
  if defineRowTest rows 2 then
    Ok (mkHeaderSpec 3 (if String.eqb (trimmedA1 rows) "2"
                        then OrientationVertical else OrientationHorizontal) 3)
  else if defineRowTest rows 1 then Ok (mkHeaderSpec 2 OrientationHorizontal 2)
  else if defineRowTest rows 0 then Ok (mkHeaderSpec 1 OrientationHorizontal 1)
  else Err HeaderDetectionError.
Proof. destruct rows as [| [| c row0] rest]; reflexivity. Qed.

(** C3. Header detection checks three cases in a fixed order, the first
    that matches wins: a define row at index 2 gives a header of 3 rows
    with define row 3, vertical exactly when the trimmed cell A1 is the
    text 2 and horizontal otherwise; else a define row at index 1 gives a
    horizontal header of 2 rows with define row 2; else a define row at
    index 0 gives a horizontal header of 1 row with define row 1; else
    detection fails with HeaderDetectionError. *)
Theorem C3_header_detection (rows : list (list string)) :
  (looksLikeDefineRow rows 2 ->
     exists ori,
       detectHeaderSpec rows = Ok (mkHeaderSpec 3 ori 3)
       /\ (ori = OrientationVertical <-> trimmedA1 rows = "2")
       /\ (ori = OrientationHorizontal <-> trimmedA1 rows <> "2"))
  /\ (~ looksLikeDefineRow rows 2 -> looksLikeDefineRow rows 1 ->
        detectHeaderSpec rows = Ok (mkHeaderSpec 2 OrientationHorizontal 2))
  /\ (~ looksLikeDefineRow rows 2 -> ~ looksLikeDefineRow rows 1 ->
      looksLikeDefineRow rows 0 ->
        detectHeaderSpec rows = Ok (mkHeaderSpec 1 OrientationHorizontal 1))
  /\ (~ looksLikeDefineRow rows 2 -> ~ looksLikeDefineRow rows 1 ->
      ~ looksLikeDefineRow rows 0 ->
        detectHeaderSpec rows = Err HeaderDetectionError).
Proof.
  rewrite detectHeaderSpec_tests.
  repeat split.
  - intros H2. apply define_row_test in H2. rewrite H2.
    destruct (String.eqb_spec (trimmedA1 rows) "2") as [E | E];
      eexists; (split; [reflexivity |]); split; split; congruence.
  - intros H2 H1. apply define_row_test_false in H2. apply define_row_test in H1.
    now rewrite H2, H1.
  - intros H2 H1 H0. apply define_row_test_false in H2, H1.
    apply define_row_test in H0. now rewrite H2, H1, H0.
  - intros H2 H1 H0. apply define_row_test_false in H2, H1, H0.
    now rewrite H2, H1, H0.
Qed.

Lemma C3_header_detection_witness :
  detectHeaderSpec [["note"]; ["cid#int"]] = Ok (mkHeaderSpec 2 OrientationHorizontal 2).
Proof.
  apply (C3_header_detection [["note"]; ["cid#int"]]).
  - intros (row & cell & H & _). discriminate.
  - exists ["cid#int"], "cid#int". split; [reflexivity |]. split; [now left |].
    right. right. right. left. reflexivity.
Defined.

Lemma detect_vertical (rows : list (list string)) (spec : HeaderSpec) :
  detectHeaderSpec rows = Ok spec ->
  HOrientation spec = OrientationVertical ->
  looksLikeDefineRow rows 2 /\ trimmedA1 rows = "2".
Proof.
  rewrite detectHeaderSpec_tests. intros H Hv.
  destruct (defineRowTest rows 2) eqn:E2.
  - split; [now apply define_row_test |].
    destruct (String.eqb_spec (trimmedA1 rows) "2"); [assumption |].
    injection H as <-. discriminate.
  - destruct (defineRowTest rows 1); [injection H as <-; discriminate |].
    destruct (defineRowTest rows 0); [injection H as <-; discriminate |].
    discriminate.
Qed.

(** C4. A sheet whose detected header selects the vertical orientation
    (a header of 3 rows whose trimmed cell A1 is the text 2) makes the
    pipeline abort with UnsupportedOrientationError: the result is this
    error whatever the field-definition parser and the row reader would
    do, so neither of them has a part in it. *)
Theorem C4_vertical_aborts_before_parsing
    (rows : list (list string)) (spec : HeaderSpec) :
  detectHeaderSpec rows = Ok spec ->
  HOrientation spec = OrientationVertical ->
  (looksLikeDefineRow rows 2 /\ trimmedA1 rows = "2")
  /\ (forall parse read exportFlag agg origin name,
        addSheetWith parse read exportFlag agg origin name rows
        = Err (UnsupportedOrientationError origin))
  /\ (forall ParseFloat exportFlag agg origin name,
        addSheet ParseFloat exportFlag agg origin name rows
        = Err (UnsupportedOrientationError origin)).
Proof.
  intros Hd Hv. split; [eauto using detect_vertical |].
  assert (forall parse read exportFlag agg origin name,
             addSheetWith parse read exportFlag agg origin name rows
             = Err (UnsupportedOrientationError origin)) as H.
  { intros. unfold addSheetWith. now rewrite Hd, Hv. }
  split; [exact H |]. intros. apply H.
Qed.

Definition verticalSheet : list (list string) :=
  [[" 2 "; "id"]; ["note"; "note"]; ["cid-int"; "count#int"]].

End HeaderAndDecoder.

Lemma C4_vertical_witness :
  (looksLikeDefineRow verticalSheet 2 /\ trimmedA1 verticalSheet = "2")
  /\ (forall (T : CaseTables) parse read exportFlag agg origin name,
        addSheetWith parse read exportFlag agg origin name verticalSheet
        = Err (UnsupportedOrientationError origin))
  /\ (forall (T : CaseTables) ParseFloat exportFlag agg origin name,
        addSheet ParseFloat exportFlag agg origin name verticalSheet
        = Err (UnsupportedOrientationError origin)).
Proof.
  split; [| split; intros T; intros].
  - apply (C4_vertical_aborts_before_parsing (T := caselessTables) verticalSheet
             (mkHeaderSpec 3 OrientationVertical 3)); reflexivity.
  - apply (C4_vertical_aborts_before_parsing verticalSheet
             (mkHeaderSpec 3 OrientationVertical 3)); reflexivity.
  - apply (C4_vertical_aborts_before_parsing verticalSheet
             (mkHeaderSpec 3 OrientationVertical 3)); reflexivity.
Defined.

Section DefineRowCells.

Context {T : CaseTables}.

(** ** The loop over the define row *)

Section DefineRow.

Variables (defineRow : Z) (exportFlag : string).

(** The fields that the turns of the loop append, from column [colIdx]. *)
Fixpoint appended (colIdx : Z) (row : list string) : list Field :=
  match row with
  | [] => []
  | rawCell :: rest =>
    match parseCell defineRow exportFlag colIdx rawCell with
    | Append f => f :: appended (colIdx + 1) rest
    | _ => appended (colIdx + 1) rest
    end
  end.

(** No turn of the loop over [row] returns an error. *)
Definition noReturn (colIdx : Z) (row : list string) : Prop :=
  forall (j : nat) (c : string) (e : error),
    row !! j = Some c ->
    parseCell defineRow exportFlag (colIdx + Z.of_nat j) c <> Return e.

Lemma noReturn_cons (colIdx : Z) (c : string) (row : list string) :
  noReturn colIdx (c :: row) <->
  (forall e, parseCell defineRow exportFlag colIdx c <> Return e)
  /\ noReturn (colIdx + 1) row.
Proof.
  unfold noReturn. split.
  - intros H. split.
    + intros e. specialize (H 0%nat c e eq_refl).
      now rewrite Z.add_0_r in H.
    + intros j c' e Hj. specialize (H (S j) c' e Hj).
      now replace (colIdx + 1 + Z.of_nat j) with (colIdx + Z.of_nat (S j)) by lia.
  - intros [H0 H] [| j] c' e Hj.
    + injection Hj as <-. rewrite Z.add_0_r. apply H0.
    + specialize (H j c' e Hj).
      now replace (colIdx + Z.of_nat (S j)) with (colIdx + 1 + Z.of_nat j) by lia.
Qed.

Lemma parseCells_Ok (row : list string) :
  forall colIdx fields fs,
    parseCells defineRow exportFlag colIdx row fields = Ok fs <->
    noReturn colIdx row /\ fs = (fields ++ appended colIdx row)%list.
Proof.
  induction row as [| c row IH]; intros colIdx fields fs; simpl.
  - rewrite app_nil_r. split.
    + intros [= <-]. split; [| reflexivity]. intros j c e Hj. discriminate.
    + intros [_ ->]. reflexivity.
  - rewrite noReturn_cons.
    destruct (parseCell defineRow exportFlag colIdx c) as [| f | e] eqn:E.
    + rewrite IH. intuition congruence.
    + rewrite IH, <- app_assoc. simpl. intuition congruence.
    + split; [discriminate |]. intros [[H _] _]. now destruct (H e).
Qed.

(** The loop stops at the first turn that returns. *)
Lemma parseCells_first_Return (row : list string) :
  forall colIdx fields (i : nat) c e,
    row !! i = Some c ->
    parseCell defineRow exportFlag (colIdx + Z.of_nat i) c = Return e ->
    noReturn colIdx (take i row) ->
    parseCells defineRow exportFlag colIdx row fields = Err e.
Proof.
  induction row as [| c0 row IH]; intros colIdx fields i c e Hi Hc Hpre.
  - discriminate.
  - destruct i as [| i]; simpl in *.
    + injection Hi as ->. rewrite Z.add_0_r in Hc. now rewrite Hc.
    + apply noReturn_cons in Hpre as [H0 Hpre].
      replace (colIdx + Z.of_nat (S i)) with (colIdx + 1 + Z.of_nat i) in Hc by lia.
      destruct (parseCell defineRow exportFlag colIdx c0) as [| f | e0].
      * eapply IH; eauto.
      * eapply IH; eauto.
      * now destruct (H0 e0).
Qed.

(** An error of the loop is the error of one of its turns. *)
Lemma parseCells_Err (row : list string) :
  forall colIdx fields e,
    parseCells defineRow exportFlag colIdx row fields = Err e ->
    exists (i : nat) c,
      row !! i = Some c
      /\ parseCell defineRow exportFlag (colIdx + Z.of_nat i) c = Return e
      /\ noReturn colIdx (take i row).
Proof.
  induction row as [| c0 row IH]; intros colIdx fields e H; simpl in H.
  - discriminate.
  - destruct (parseCell defineRow exportFlag colIdx c0) as [| f | e0] eqn:E.
    1,2: apply IH in H as (i & c & Hi & Hc & Hpre); exists (S i), c;
         (split; [exact Hi |]); split;
         [ now replace (colIdx + Z.of_nat (S i)) with (colIdx + 1 + Z.of_nat i) by lia
         | simpl; apply noReturn_cons; split; [intros e'; congruence | exact Hpre] ].
    injection H as ->. exists 0%nat, c0. rewrite Z.add_0_r.
    repeat split; auto. intros j c e' Hj. discriminate.
Qed.

Lemma parseCells_total (row : list string) (colIdx : Z) (fields : list Field) :
  (exists fs, parseCells defineRow exportFlag colIdx row fields = Ok fs)
  \/ (exists e, parseCells defineRow exportFlag colIdx row fields = Err e).
Proof. destruct parseCells; eauto. Qed.

Lemma appended_In (row : list string) :
  forall colIdx f,
    In f (appended colIdx row) <->
    exists (j : nat) c,
      row !! j = Some c
      /\ parseCell defineRow exportFlag (colIdx + Z.of_nat j) c = Append f.
Proof.
  induction row as [| c0 row IH]; intros colIdx f; simpl.
  - split; [tauto |]. intros (j & c & Hj & _). discriminate.
  - assert (In f (appended (colIdx + 1) row) <->
            exists (j : nat) c, (c0 :: row) !! S j = Some c
              /\ parseCell defineRow exportFlag (colIdx + Z.of_nat (S j)) c = Append f) as IH'.
    { rewrite IH. split; intros (j & c & Hj & Hc); exists j, c; split; auto.
      - now replace (colIdx + Z.of_nat (S j)) with (colIdx + 1 + Z.of_nat j) by lia.
      - now replace (colIdx + Z.of_nat (S j)) with (colIdx + 1 + Z.of_nat j) in Hc by lia. }
    destruct (parseCell defineRow exportFlag colIdx c0) as [| f0 | e0] eqn:E; simpl;
      rewrite IH'; split.
    + intros (j & c & Hj & Hc). eauto.
    + intros ([| j] & c & Hj & Hc); [| eauto].
      injection Hj as <-. rewrite Z.add_0_r in Hc. congruence.
    + intros [-> | (j & c & Hj & Hc)]; [| eauto].
      exists 0%nat, c0. rewrite Z.add_0_r. auto.
    + intros ([| j] & c & Hj & Hc); [| eauto].
      injection Hj as <-. rewrite Z.add_0_r in Hc. left. congruence.
    + intros (j & c & Hj & Hc). eauto.
    + intros ([| j] & c & Hj & Hc); [| eauto].
      injection Hj as <-. rewrite Z.add_0_r in Hc. congruence.
Qed.

End DefineRow.

Lemma parseCell_Append_inv (defineRow : Z) (exportFlag : string) (colIdx : Z)
    (rawCell : string) (f : Field) :
  parseCell defineRow exportFlag colIdx rawCell = Append f ->
  exists rawName rawType flagCh goType,
    fieldRe (strings.TrimSpace rawCell) = Some (rawName, rawType, flagCh)
    /\ mapGoType rawType = Some goType
    /\ applyFilter exportFlag (flagOf flagCh) = Kept
    /\ f = mkField rawName (exportName rawName) rawType goType colIdx
                   (flagOf flagCh) true false.
Proof.
  unfold parseCell.
  repeat match goal with
  | |- context [if ?b then _ else _] => destruct b; [discriminate |]
  end.
  destruct (fieldRe _) as [[[n t] fl] |]; [| discriminate].
  destruct (_ || _); [discriminate |].
  destruct (applyFilter _ _) eqn:Ea; try discriminate.
  destruct (mapGoType t) as [g |] eqn:Eg; [| discriminate].
  intros [= <-]. exists n, t, fl, g. auto.
Qed.

Lemma parseCell_Return_inv (defineRow : Z) (exportFlag : string) (colIdx : Z)
    (rawCell : string) (e : error) :
  parseCell defineRow exportFlag colIdx rawCell = Return e ->
  e = InvalidFieldDefinitionError (strings.TrimSpace rawCell) defineRow
  \/ e = InvalidFlagError exportFlag
  \/ exists rawType, e = UnsupportedTypeError rawType.
Proof.
  unfold parseCell.
  repeat match goal with
  | |- context [if ?b then _ else _] => destruct b; [discriminate |]
  end.
  destruct (fieldRe _) as [[[n t] fl] |]; [| intros [= <-]; auto].
  destruct (_ || _); [discriminate |].
  destruct (applyFilter _ _) eqn:Ea; try discriminate.
  - destruct (mapGoType t) as [g |] eqn:Eg; [discriminate |].
    intros [= <-]. eauto.
  - intros [= <-]. auto.
Qed.

Lemma parseFields_unfold (rows : list (list string)) (defineRow : Z)
    (exportFlag : string) :
  0 < defineRow <= len rows ->
  parseFieldsFromDefineRow rows defineRow exportFlag =
  match parseCells defineRow exportFlag 0 (index [] rows (defineRow - 1)) [] with
  | Ok [] => Err EmptySchemaError
  | Ok fields => Ok fields
  | Err e => Err e
  end.
Proof.
  intros [H1 H2]. unfold parseFieldsFromDefineRow.
  replace (defineRow <=? 0) with false by (symmetry; apply Z.leb_gt; lia).
  replace (len rows <? defineRow) with false by (symmetry; apply Z.ltb_ge; lia).
  simpl. destruct parseCells as [[| f fs] | e]; reflexivity.
Qed.

Lemma parseFields_Ok_inv (rows : list (list string)) (defineRow : Z)
    (exportFlag : string) (fields : list Field) :
  parseFieldsFromDefineRow rows defineRow exportFlag = Ok fields ->
  0 < defineRow <= len rows
  /\ noReturn defineRow exportFlag 0 (index [] rows (defineRow - 1))
  /\ fields = appended defineRow exportFlag 0 (index [] rows (defineRow - 1)).
Proof.
  intros H.
  assert (0 < defineRow <= len rows) as Hr.
  { unfold parseFieldsFromDefineRow in H.
    destruct (defineRow <=? 0) eqn:E1; [discriminate |].
    destruct (len rows <? defineRow) eqn:E2; [discriminate |].
    apply Z.leb_gt in E1. apply Z.ltb_ge in E2. lia. }
  split; [exact Hr |].
  rewrite (parseFields_unfold _ _ _ Hr) in H.
  destruct parseCells as [[| f fs] | e] eqn:E; try discriminate.
  injection H as <-. apply parseCells_Ok in E as [Hn ->]. auto.
Qed.

(** ** The matcher [fieldRe] against the regular expression

    The expression of line 390 read as a description of texts: optional
    white space, an identifier, optional white space, the # sign,
    optional white space, a type token, optional white space, optionally
    a comma with a flag, optional white space, the end. *)

Definition spaces (w : list ascii) : Prop := forallb regexp.isSpace w = true.

(** The end of the expression, from the optional flag group on:
    either nothing, or a comma, white space, one of the letters s and c,
    white space. *)
Definition flagGroup (tail flag : list ascii) : Prop :=
  (tail = [] /\ flag = [])
  \/ exists w4 f w5,
       tail = (","%char :: w4 ++ f :: w5)%list
       /\ spaces w4 /\ regexp.isFlagChar f = true /\ spaces w5 /\ flag = [f].

Definition fieldReMatch (cell name ty flag : list ascii) : Prop :=
  exists w0 w1 w2 w3 tail n0 nrest,
    cell = (w0 ++ name ++ w1 ++ "#"%char :: w2 ++ ty ++ w3 ++ tail)%list
    /\ spaces w0 /\ spaces w1 /\ spaces w2 /\ spaces w3
    /\ name = n0 :: nrest
    /\ regexp.isNameStart n0 = true
    /\ forallb regexp.isNameChar nrest = true
    /\ ty <> []
    /\ forallb regexp.isTypeChar ty = true
    /\ flagGroup tail flag.

Definition stopsAt (p : ascii -> bool) (s : list ascii) : Prop :=
  match s with
  | [] => True
  | c :: _ => p c = false
  end.

Lemma span_spec (p : ascii -> bool) (s : list ascii) :
  forall a b,
    regexp.span p s = (a, b) ->
    s = (a ++ b)%list /\ forallb p a = true /\ stopsAt p b.
Proof.
  induction s as [| c s IH]; intros a b; simpl.
  - intros [= <- <-]. repeat split.
  - destruct (p c) eqn:E.
    + destruct (regexp.span p s) as [a' b'] eqn:Es. intros [= <- <-].
      destruct (IH _ _ eq_refl) as (-> & Ha & Hb).
      split; [reflexivity |]. split; [| exact Hb].
      cbn [forallb]. now rewrite E, Ha.
    + intros [= <- <-]. simpl. auto.
Qed.

Lemma span_unique (p : ascii -> bool) (a b : list ascii) :
  forallb p a = true -> stopsAt p b -> regexp.span p (a ++ b)%list = (a, b).
Proof.
  intros Ha Hb. induction a as [| c a IH]; simpl.
  - destruct b as [| c b]; [reflexivity |]. simpl in Hb |- *. now rewrite Hb.
  - simpl in Ha. apply andb_true_iff in Ha as [-> Ha]. now rewrite IH.
Qed.

Lemma skipSpace_spec (s : list ascii) :
  exists w, s = (w ++ regexp.skipSpace s)%list /\ spaces w
            /\ stopsAt regexp.isSpace (regexp.skipSpace s).
Proof.
  unfold regexp.skipSpace. destruct (regexp.span regexp.isSpace s) as [w b] eqn:E.
  apply span_spec in E as (-> & Hw & Hb). exists w. auto.
Qed.

Lemma skipSpace_unique (w b : list ascii) :
  spaces w -> stopsAt regexp.isSpace b -> regexp.skipSpace (w ++ b)%list = b.
Proof.
  intros Hw Hb. unfold regexp.skipSpace. now rewrite (span_unique _ _ _ Hw Hb).
Qed.

(** The classes of the expression exclude one another as the reading
    above needs. *)
Lemma nameChar_not_space (c : ascii) :
  regexp.isNameChar c = true -> regexp.isSpace c = false.
Proof. destruct c as [[] [] [] [] [] [] [] []]; intros H; try discriminate H; reflexivity. Qed.

Lemma space_not_nameChar (c : ascii) :
  regexp.isSpace c = true -> regexp.isNameChar c = false.
Proof. destruct c as [[] [] [] [] [] [] [] []]; intros H; try discriminate H; reflexivity. Qed.

Lemma space_not_typeChar (c : ascii) :
  regexp.isSpace c = true -> regexp.isTypeChar c = false.
Proof. destruct c as [[] [] [] [] [] [] [] []]; intros H; try discriminate H; reflexivity. Qed.

Lemma typeChar_not_space (c : ascii) :
  regexp.isTypeChar c = true -> regexp.isSpace c = false.
Proof. destruct c as [[] [] [] [] [] [] [] []]; intros H; try discriminate H; reflexivity. Qed.

Lemma flagChar_not_space (c : ascii) :
  regexp.isFlagChar c = true -> regexp.isSpace c = false.
Proof. destruct c as [[] [] [] [] [] [] [] []]; intros H; try discriminate H; reflexivity. Qed.

Lemma stopsAt_app (p : ascii -> bool) (w b : list ascii) :
  Forall (fun c => p c = false) w -> stopsAt p b -> stopsAt p (w ++ b)%list.
Proof. intros Hw Hb. destruct w as [| c w]; [exact Hb |]. now inversion Hw. Qed.

Lemma spaces_Forall (w : list ascii) :
  spaces w -> Forall (fun c => regexp.isSpace c = true) w.
Proof.
  unfold spaces. rewrite forallb_forall, List.Forall_forall. auto.
Qed.

(** [fieldRe] returns submatches exactly for the texts that the
    expression describes, and the submatches are those of the
    description: there is one way at most to read a text. *)
Theorem fieldRe_correct (cell name ty flag : string) :
  fieldRe cell = Some (name, ty, flag) <->
  fieldReMatch (strings.bytes cell) (strings.bytes name) (strings.bytes ty)
    (strings.bytes flag).
Proof.
  split.
  - unfold fieldRe. intros H.
    destruct (skipSpace_spec (strings.bytes cell)) as (w0 & Hcell & Hw0 & _).
    destruct (regexp.span regexp.isNameChar (regexp.skipSpace (strings.bytes cell)))
      as [nm s1] eqn:En.
    apply span_spec in En as (Es0 & Hnm & _).
    destruct nm as [| n0 nrest]; [discriminate |].
    destruct (regexp.isNameStart n0) eqn:En0; [| discriminate]. simpl negb in H. cbv iota in H.
    destruct (skipSpace_spec s1) as (w1 & Hs1 & Hw1 & _).
    destruct (regexp.skipSpace s1) as [| h s2]; [discriminate |].
    destruct (ascii_dec h "#") as [-> | Hh];
      [| destruct h as [[] [] [] [] [] [] [] []]; try discriminate H; now destruct Hh].
    destruct (skipSpace_spec s2) as (w2 & Hs2 & Hw2 & _).
    destruct (regexp.span regexp.isTypeChar (regexp.skipSpace s2)) as [t s3] eqn:Et.
    apply span_spec in Et as (Es2 & Ht & _).
    destruct t as [| t0 trest]; [discriminate |].
    destruct (skipSpace_spec s3) as (w3 & Hs3 & Hw3 & _).
    assert (forall tail fl,
              regexp.skipSpace s3 = tail -> flagGroup tail fl ->
              name = strings.str (n0 :: nrest) -> ty = strings.str (t0 :: trest) ->
              flag = strings.str fl ->
              fieldReMatch (strings.bytes cell) (strings.bytes name) (strings.bytes ty)
                (strings.bytes flag)) as Hbuild.
    { intros tail fl Etail Hfl -> -> ->. rewrite !bytes_str.
      exists w0, w1, w2, w3, tail, n0, nrest.
      split.
      { rewrite Hcell at 1. f_equal. rewrite Es0. f_equal.
        rewrite Hs1 at 1. do 2 f_equal. rewrite Hs2 at 1. f_equal.
        rewrite Es2. f_equal. rewrite Hs3 at 1. now f_equal. }
      simpl in Hnm. apply andb_true_iff in Hnm as [_ Hnm].
      repeat split; auto; discriminate. }
    destruct (regexp.skipSpace s3) as [| h3 s4] eqn:E3.
    + injection H as <- <- <-.
      apply (Hbuild [] []); auto. left. auto.
    + destruct (ascii_dec h3 ",") as [-> | Hh3];
        [| destruct h3 as [[] [] [] [] [] [] [] []]; try discriminate H; now destruct Hh3].
      destruct (skipSpace_spec s4) as (w4 & Hs4 & Hw4 & _).
      destruct (regexp.skipSpace s4) as [| f s5]; [discriminate |].
      destruct (regexp.isFlagChar f) eqn:Ef; [| discriminate].
      destruct (skipSpace_spec s5) as (w5 & Hs5 & Hw5 & _).
      destruct (regexp.skipSpace s5); [| discriminate].
      injection H as <- <- <-.
      apply (Hbuild (","%char :: s4) [f]); auto.
      right. exists w4, f, s5. rewrite app_nil_r in Hs5. subst w5.
      rewrite Hs4 at 1. repeat split; auto.
  - intros (w0 & w1 & w2 & w3 & tail & n0 & nrest & Hcell & Hw0 & Hw1 & Hw2 & Hw3
            & Hname & Hn0 & Hnrest & Htyne & Hty & Hflag).
    unfold fieldRe. rewrite Hcell. clear Hcell.
    assert (regexp.isNameChar n0 = true) as Hn0c by now apply isNameStart_isNameChar.
    destruct (strings.bytes ty) as [| t0 trest] eqn:Ety; [contradiction |].
    assert (Hsp : forall w, spaces w -> forall p,
              (forall c, regexp.isSpace c = true -> p c = false) ->
              Forall (fun c => p c = false) w).
    { intros w Hw p Hp. apply spaces_Forall in Hw.
      eapply Forall_impl; [exact Hw |]. exact Hp. }
    (* leading white space, then the identifier *)
    rewrite skipSpace_unique;
      [| exact Hw0 | rewrite Hname; simpl; now apply nameChar_not_space].
    rewrite (span_unique regexp.isNameChar (strings.bytes name));
      [| rewrite Hname; simpl; now rewrite Hn0c
       | apply stopsAt_app; [| reflexivity];
         apply (Hsp w1 Hw1); apply space_not_nameChar ].
    rewrite Hname at 1. rewrite Hn0. simpl negb. cbv iota.
    (* the # sign and the type token *)
    rewrite skipSpace_unique; [| exact Hw1 | reflexivity].
    assert (regexp.isTypeChar t0 = true) as Ht0
      by (simpl in Hty; now apply andb_true_iff in Hty as [? _]).
    rewrite skipSpace_unique;
      [| exact Hw2 | simpl; now apply typeChar_not_space].
    assert (stopsAt regexp.isTypeChar (w3 ++ tail)%list) as Hstop.
    { apply stopsAt_app.
      - apply (Hsp w3 Hw3). apply space_not_typeChar.
      - destruct Hflag as [[-> _] | (w4 & f & w5 & -> & _)]; reflexivity. }
    rewrite (span_unique regexp.isTypeChar (t0 :: trest) _ Hty Hstop).
    rewrite <- Ety, !str_bytes.
    (* the optional flag *)
    destruct Hflag as [[-> Hfl] | (w4 & f & w5 & -> & Hw4 & Hf & Hw5 & Hfl)].
    + rewrite app_nil_r.
      replace (regexp.skipSpace w3) with (@nil ascii)
        by (symmetry; rewrite <- (app_nil_r w3); now apply skipSpace_unique).
      apply (f_equal strings.str) in Hfl. rewrite str_bytes in Hfl. now rewrite Hfl.
    + rewrite skipSpace_unique; [| exact Hw3 | reflexivity].
      rewrite skipSpace_unique; [| exact Hw4 | simpl; now apply flagChar_not_space].
      rewrite Hf.
      replace (regexp.skipSpace w5) with (@nil ascii)
        by (symmetry; rewrite <- (app_nil_r w5); now apply skipSpace_unique).
      apply (f_equal strings.str) in Hfl. rewrite str_bytes in Hfl. now rewrite Hfl.
Qed.

(** The text matches the grammar name#type[,flag]. *)
Definition matchesGrammar (cell : string) : Prop :=
  exists name ty flag, fieldReMatch (strings.bytes cell) name ty flag.

Lemma fieldRe_None_iff (cell : string) :
  fieldRe cell = None <-> ~ matchesGrammar cell.
Proof.
  split.
  - intros Hnone (name & ty & flag & Hm).
    rewrite <- (bytes_str name), <- (bytes_str ty), <- (bytes_str flag) in Hm.
    apply fieldRe_correct in Hm. congruence.
  - intros Hno. destruct (fieldRe cell) as [[[name ty] flag] |] eqn:E; [| reflexivity].
    apply fieldRe_correct in E. destruct Hno. red. eauto.
Qed.

(** ** C5: define-row cells outside the grammar *)

(** "A non-blank cell that does not case-insensitively contain #comment
    or #common and does not match the grammar name#type[,flag]." *)
Definition malformedCell (rawCell : string) : Prop :=
  let cell := strings.TrimSpace rawCell in
  cell <> ""
  /\ strings.Contains (strings.ToLower cell) "#comment" = false
  /\ strings.Contains (strings.ToLower cell) "#common" = false
  /\ ~ matchesGrammar cell.

Lemma parseCell_malformed (defineRow : Z) (exportFlag : string) (colIdx : Z)
    (rawCell : string) :
  malformedCell rawCell ->
  parseCell defineRow exportFlag colIdx rawCell
  = Return (InvalidFieldDefinitionError (strings.TrimSpace rawCell) defineRow).
Proof.
  intros (Hne & Hc1 & Hc2 & Hre%fieldRe_None_iff). unfold parseCell.
  destruct (String.eqb_spec (strings.TrimSpace rawCell) ""); [contradiction |].
  now rewrite Hc1, Hc2, Hre.
Qed.

(** "The cell defines a field": it is not blank, is no comment cell,
    matches the grammar, and its type token is not comment or common. *)
Definition definesField (rawCell rawName rawType flagCh : string) : Prop :=
  let cell := strings.TrimSpace rawCell in
  cell <> ""
  /\ strings.Contains (strings.ToLower cell) "#comment" = false
  /\ strings.Contains (strings.ToLower cell) "#common" = false
  /\ fieldReMatch (strings.bytes cell) (strings.bytes rawName)
       (strings.bytes rawType) (strings.bytes flagCh)
  /\ strings.ToLower rawType <> "comment"
  /\ strings.ToLower rawType <> "common".

Lemma parseCell_definesField (defineRow : Z) (exportFlag : string) (colIdx : Z)
    (rawCell rawName rawType flagCh : string) :
  definesField rawCell rawName rawType flagCh ->
  parseCell defineRow exportFlag colIdx rawCell
  = match applyFilter exportFlag (flagOf flagCh) with
    | Dropped => Continue
    | BadFilter => Return (InvalidFlagError exportFlag)
    | Kept =>
      match mapGoType rawType with
      | None => Return (UnsupportedTypeError rawType)
      | Some goType =>
        Append (mkField rawName (exportName rawName) rawType goType colIdx
                        (flagOf flagCh) true false)
      end
    end.
Proof.
  intros (Hne & Hc1 & Hc2 & Hre%fieldRe_correct & Ht1 & Ht2). unfold parseCell.
  destruct (String.eqb_spec (strings.TrimSpace rawCell) ""); [contradiction |].
  rewrite Hc1, Hc2, Hre.
  destruct (String.eqb_spec (strings.ToLower rawType) "comment"); [contradiction |].
  destruct (String.eqb_spec (strings.ToLower rawType) "common"); [contradiction |].
  reflexivity.
Qed.

(** The export flags that the filter knows, and the fields that it
    hides: under "server" those flagged c, under "client" those
    flagged s. *)
Definition knownFlag (exportFlag : string) : Prop :=
  exportFlag = "" \/ exportFlag = "server" \/ exportFlag = "client".

Definition hidden (exportFlag flagCh : string) : Prop :=
  (exportFlag = "server" /\ flagCh = "c") \/ (exportFlag = "client" /\ flagCh = "s").

Lemma applyFilter_spec (exportFlag flagCh : string) :
  match applyFilter exportFlag (flagOf flagCh) with
  | BadFilter => ~ knownFlag exportFlag
  | Dropped => knownFlag exportFlag /\ hidden exportFlag flagCh
  | Kept => knownFlag exportFlag /\ ~ hidden exportFlag flagCh
  end.
Proof.
  unfold applyFilter, knownFlag, hidden, flagOf.
  destruct (String.eqb_spec exportFlag "") as [-> | H0].
  { split; [now left |]. intros [[H _] | [H _]]; discriminate H. }
  destruct (String.eqb_spec exportFlag "server") as [-> | H1].
  { destruct (String.eqb_spec flagCh "") as [-> | F0]; simpl.
    { split; [auto |]. intros [[_ H] | [H _]]; discriminate H. }
    destruct (String.eqb_spec flagCh "s") as [-> | F1]; simpl.
    { split; [auto |]. intros [[_ H] | [H _]]; discriminate H. }
    destruct (String.eqb_spec flagCh "c") as [-> | F2]; simpl.
    { split; auto. }
    split; [auto |]. intros [[_ H] | [H _]]; [contradiction | discriminate H]. }
  destruct (String.eqb_spec exportFlag "client") as [-> | H2].
  { destruct (String.eqb_spec flagCh "") as [-> | F0]; simpl.
    { split; [auto |]. intros [[H _] | [_ H]]; discriminate H. }
    destruct (String.eqb_spec flagCh "s") as [-> | F1]; simpl.
    { split; auto. }
    destruct (String.eqb_spec flagCh "c") as [-> | F2]; simpl.
    { split; [auto |]. intros [[H _] | [_ H]]; discriminate H. }
    split; [auto |]. intros [[H _] | [_ H]]; [discriminate H | contradiction]. }
  intros [H | [H | H]]; contradiction.
Qed.

(** "The cell fails with the error e": what the text of a cell of the
    define row makes of the parse under an export flag.  A malformed cell
    fails with InvalidFieldDefinitionError, naming the trimmed cell and
    the define row; a cell that defines a field fails with
    InvalidFlagError when the export flag is unknown, and with
    UnsupportedTypeError, naming its type token, when the flag is known,
    does not hide the field, and the type table does not know the
    token. *)
Inductive cellFails (defineRow : Z) (exportFlag : string) (rawCell : string)
  : error -> Prop :=
| FailsMalformed :
    malformedCell rawCell ->
    cellFails defineRow exportFlag rawCell
      (InvalidFieldDefinitionError (strings.TrimSpace rawCell) defineRow)
| FailsFlag (rawName rawType flagCh : string) :
    definesField rawCell rawName rawType flagCh ->
    ~ knownFlag exportFlag ->
    cellFails defineRow exportFlag rawCell (InvalidFlagError exportFlag)
| FailsType (rawName rawType flagCh : string) :
    definesField rawCell rawName rawType flagCh ->
    knownFlag exportFlag ->
    ~ hidden exportFlag flagCh ->
    mapGoType rawType = None ->
    cellFails defineRow exportFlag rawCell (UnsupportedTypeError rawType).

(** The turn of the loop at a cell ends the parse exactly when the cell
    fails, and with that error. *)
Lemma parseCell_Return_iff (defineRow : Z) (exportFlag : string) (colIdx : Z)
    (rawCell : string) (e : error) :
  parseCell defineRow exportFlag colIdx rawCell = Return e
  <-> cellFails defineRow exportFlag rawCell e.
Proof.
  split.
  - unfold parseCell.
    destruct (String.eqb_spec (strings.TrimSpace rawCell) "") as [| Hne]; [discriminate |].
    destruct (strings.Contains (strings.ToLower (strings.TrimSpace rawCell)) "#comment")
      eqn:Hc1; [discriminate |].
    destruct (strings.Contains (strings.ToLower (strings.TrimSpace rawCell)) "#common")
      eqn:Hc2; [discriminate |].
    simpl orb. cbv iota.
    destruct (fieldRe (strings.TrimSpace rawCell)) as [[[n t] fl] |] eqn:Hre.
    + destruct (String.eqb_spec (strings.ToLower t) "comment") as [| Ht1]; [discriminate |].
      destruct (String.eqb_spec (strings.ToLower t) "common") as [| Ht2]; [discriminate |].
      simpl orb. cbv iota.
      assert (definesField rawCell n t fl) as Hdef.
      { repeat split; try assumption. now apply fieldRe_correct. }
      pose proof (applyFilter_spec exportFlag fl) as Hf.
      destruct (applyFilter exportFlag (flagOf fl)); [| discriminate |].
      * destruct (mapGoType t) eqn:Hg; [discriminate |]. intros [= <-].
        destruct Hf as [Hk Hh]. now apply (FailsType _ _ _ n t fl).
      * intros [= <-]. now apply (FailsFlag _ _ _ n t fl).
    + intros [= <-]. apply FailsMalformed. repeat split; try assumption.
      now apply fieldRe_None_iff.
  - intros [Hbad | n t fl Hdef Hk | n t fl Hdef Hk Hh Hg].
    + now apply parseCell_malformed.
    + rewrite (parseCell_definesField _ _ _ _ _ _ _ Hdef).
      pose proof (applyFilter_spec exportFlag fl) as Hf.
      destruct (applyFilter exportFlag (flagOf fl)); [tauto | tauto | reflexivity].
    + rewrite (parseCell_definesField _ _ _ _ _ _ _ Hdef).
      pose proof (applyFilter_spec exportFlag fl) as Hf.
      destruct (applyFilter exportFlag (flagOf fl)); [| tauto | tauto].
      now rewrite Hg.
Qed.

(** C5, as the code has it.  A malformed cell of the define row makes the
    field-definition parser fail, so the cell is never dropped silently
    from a returned field list.  The parser stops at the leftmost cell of
    the define row that fails: there is such a cell, at the malformed
    cell or to its left, no cell to the left of it fails, and the error
    of the parser is the error of that cell.  When no cell to the left
    of the malformed cell fails, the error is therefore
    InvalidFieldDefinitionError naming the malformed cell and the define
    row. *)
Theorem C5_malformed_cell_fails (rows : list (list string)) (defineRow : Z)
    (exportFlag : string) (i : nat) (rawCell : string) :
  0 < defineRow <= len rows ->
  index [] rows (defineRow - 1) !! i = Some rawCell ->
  malformedCell rawCell ->
  (exists (j : nat) (cell : string) (e : error),
     (j <= i)%nat
     /\ index [] rows (defineRow - 1) !! j = Some cell
     /\ cellFails defineRow exportFlag cell e
     /\ (forall (k : nat) (c : string) (e' : error),
           (k < j)%nat -> index [] rows (defineRow - 1) !! k = Some c ->
           ~ cellFails defineRow exportFlag c e')
     /\ parseFieldsFromDefineRow rows defineRow exportFlag = Err e)
  /\ ((forall (k : nat) (c : string) (e' : error),
         (k < i)%nat -> index [] rows (defineRow - 1) !! k = Some c ->
         ~ cellFails defineRow exportFlag c e') ->
      parseFieldsFromDefineRow rows defineRow exportFlag
      = Err (InvalidFieldDefinitionError (strings.TrimSpace rawCell) defineRow)).
Proof.
  intros Hr Hi Hbad. rewrite (parseFields_unfold _ _ _ Hr).
  set (row := index [] rows (defineRow - 1)) in *.
  pose proof (parseCell_malformed defineRow exportFlag (0 + Z.of_nat i) _ Hbad) as Hc.
  assert (exists (j : nat) cell e,
            (j <= i)%nat /\ row !! j = Some cell
            /\ parseCell defineRow exportFlag (0 + Z.of_nat j) cell = Return e
            /\ noReturn defineRow exportFlag 0 (take j row)
            /\ parseCells defineRow exportFlag 0 row [] = Err e) as Hfirst.
  { destruct (parseCells defineRow exportFlag 0 row []) as [fs | e] eqn:E.
    - apply parseCells_Ok in E as [Hn _]. exact (False_ind _ (Hn i rawCell _ Hi Hc)).
    - apply parseCells_Err in E as (j & c & Hj & Hret & Hpre).
      exists j, c, e. repeat split; try assumption.
      destruct (le_lt_dec j i) as [Hle | Hlt]; [exact Hle |]. exfalso.
      eapply (Hpre i rawCell); [| exact Hc].
      rewrite lookup_take_lt by lia. exact Hi. }
  destruct Hfirst as (j & cell & e & Hle & Hj & Hret & Hpre & Herr).
  assert (forall (k : nat) c e',
            (k < j)%nat -> row !! k = Some c -> ~ cellFails defineRow exportFlag c e')
    as Hleft.
  { intros k c e' Hk Hc' Hfail.
    apply (parseCell_Return_iff defineRow exportFlag (0 + Z.of_nat k)) in Hfail.
    apply (Hpre k c e'); [| exact Hfail]. rewrite lookup_take_lt by lia. exact Hc'. }
  split.
  - exists j, cell, e. rewrite Herr. repeat split; try assumption.
    now apply (parseCell_Return_iff defineRow exportFlag (0 + Z.of_nat j)).
  - intros Hnone. rewrite Herr.
    assert (j = i) as ->.
    { destruct (le_lt_dec i j) as [H | H]; [lia |]. exfalso.
      apply (Hnone j cell e H Hj).
      now apply (parseCell_Return_iff defineRow exportFlag (0 + Z.of_nat j)). }
    rewrite Hi in Hj. injection Hj as <-. rewrite Hc in Hret. injection Hret as <-.
    reflexivity.
Qed.

End DefineRowCells.

(** The cell cid-int is malformed whatever the case tables are. *)
Lemma malformed_dash (T : CaseTables) : malformedCell "cid-int".
Proof.
  split; [discriminate |]. split; [reflexivity |]. split; [reflexivity |].
  now apply fieldRe_None_iff.
Qed.

(** A malformed cell after a field and a blank cell: the parser names
    it. *)
Lemma C5_malformed_cell_witness :
  (forall T : CaseTables, malformedCell "cid-int")
  /\ (forall T : CaseTables,
        parseFieldsFromDefineRow [["note"]; ["lv#int"; " "; "cid-int"; "hp#uint"]] 2 "server"
        = Err (InvalidFieldDefinitionError "cid-int" 2)).
Proof.
  split; [exact malformed_dash |]. intros T.
  apply (C5_malformed_cell_fails [["note"]; ["lv#int"; " "; "cid-int"; "hp#uint"]]
           2 "server" 2 "cid-int");
    [unfold len; simpl; lia | reflexivity | apply malformed_dash |].
  intros k c e' Hk Hc Hfail.
  apply (parseCell_Return_iff 2 "server" (Z.of_nat k)) in Hfail.
  destruct k as [| [| k]]; [| | lia]; injection Hc as <-; discriminate Hfail.
Defined.

(** The claim as stated fails where a cell to the left of the malformed
    one fails first: in the row hp#uint, cid-int the cell cid-int is
    malformed, and the parser fails with UnsupportedTypeError for
    uint. *)
Lemma C5_counterexample_earlier_error :
  (forall T : CaseTables, malformedCell "cid-int")
  /\ [["hp#uint"; "cid-int"]] !! 0%nat = Some ["hp#uint"; "cid-int"]
  /\ ["hp#uint"; "cid-int"] !! 1%nat = Some "cid-int"
  /\ (forall T : CaseTables,
        parseFieldsFromDefineRow [["hp#uint"; "cid-int"]] 1 ""
        = Err (UnsupportedTypeError "uint")).
Proof.
  split; [exact malformed_dash |]. repeat split.
Qed.

Section Visibility.

Context {T : CaseTables}.

(** ** C6: the visibility filter *)

(** An identifier: a letter or underscore, then letters, digits and
    underscores. *)
Definition isIdentifier (name : string) : bool :=
  match strings.bytes name with
  | [] => false
  | c :: rest => regexp.isNameStart c && forallb regexp.isNameChar rest
  end.

(** What a character of an identifier is not: it is an ASCII byte, no
    white space, not the # sign, and its lower case is not the # sign. *)
Lemma isNameChar_facts (c : ascii) :
  regexp.isNameChar c = true ->
  (utf8.byteval c <? utf8.RuneSelf) = true
  /\ unicode.IsSpace (utf8.byteval c) = false
  /\ regexp.isSpace c = false
  /\ strings.lowerByte c <> "#"%char
  /\ regexp.isNameChar (strings.lowerByte c) = true.
Proof.
  destruct c as [[] [] [] [] [] [] [] []]; intros H; try discriminate H;
    repeat split; try reflexivity; discriminate.
Qed.

Lemma isIdentifier_chars (name : string) :
  isIdentifier name = true ->
  exists c rest,
    strings.bytes name = c :: rest
    /\ regexp.isNameStart c = true
    /\ Forall (fun x => regexp.isNameChar x = true) (c :: rest).
Proof.
  unfold isIdentifier. destruct (strings.bytes name) as [| c rest]; [discriminate |].
  intros [Hc Hrest]%andb_true_iff. exists c, rest.
  split; [reflexivity |]. split; [exact Hc |].
  constructor; [now apply isNameStart_isNameChar |].
  apply List.Forall_forall. intros x Hx.
  rewrite forallb_forall in Hrest. auto.
Qed.

Lemma span_identifier (nm rest : list ascii) :
  Forall (fun x => regexp.isNameChar x = true) nm ->
  regexp.span regexp.isNameChar (nm ++ "#"%char :: rest)%list
  = (nm, "#"%char :: rest).
Proof.
  induction 1 as [| c nm Hc _ IH]; simpl; [reflexivity |].
  now rewrite Hc, IH.
Qed.

Lemma Contains_cons (c a : ascii) (s pat : string) :
  strings.Contains (String c s) (String a pat)
  = (if ascii_dec a c then String.prefix pat s else false)
    || strings.Contains s (String a pat).
Proof. reflexivity. Qed.

Lemma Contains_after_identifier (nm : list ascii) (tail pat : string) :
  Forall (fun x => x <> "#"%char) nm ->
  strings.Contains (strings.str nm +:+ tail) (String "#" pat)
  = strings.Contains tail (String "#" pat).
Proof.
  induction 1 as [| c nm Hc _ IH]; [reflexivity |].
  change (strings.str (c :: nm) +:+ tail) with (String c (strings.str nm +:+ tail)).
  rewrite Contains_cons.
  destruct (ascii_dec "#" c) as [E | _]; [congruence |]. exact IH.
Qed.

(** A cell that starts and ends with ASCII bytes that are no white space
    is its own trimmed form. *)
Lemma TrimSpace_fixed (s : string) (c0 cl : ascii) (t t' : list ascii) :
  strings.bytes s = c0 :: t ->
  rev (strings.bytes s) = cl :: t' ->
  (utf8.byteval c0 <? utf8.RuneSelf) = true ->
  unicode.IsSpace (utf8.byteval c0) = false ->
  (utf8.byteval cl <? utf8.RuneSelf) = true ->
  unicode.IsSpace (utf8.byteval cl) = false ->
  strings.TrimSpace s = s.
Proof.
  intros Hs Hr H0 H0' Hl Hl'. unfold strings.TrimSpace. rewrite Hs.
  assert (strings.trimLeftSpace 0 (c0 :: t) = c0 :: t) as ->.
  { simpl. rewrite H0. now rewrite H0'. }
  rewrite <- Hs, Hr.
  assert (strings.trimRightSpace 0 (cl :: t') = cl :: t') as ->.
  { simpl. rewrite Hl. now rewrite Hl'. }
  rewrite <- Hr, rev_involutive. apply str_bytes.
Qed.

(** The turn of the loop for a cell [name#int,s] or [name#int,c]. *)
Lemma parseCell_flagged (defineRow : Z) (exportFlag : string) (colIdx : Z)
    (name : string) (server : bool) :
  isIdentifier name = true ->
  let ff := if server then FieldFlagServer else FieldFlagClient in
  parseCell defineRow exportFlag colIdx
    (name +:+ (if server then "#int,s" else "#int,c"))
  = match applyFilter exportFlag ff with
    | Kept => Append (mkField name (exportName name) "int" "int" colIdx ff true false)
    | Dropped => Continue
    | BadFilter => Return (InvalidFlagError exportFlag)
    end.
Proof.
  intros Hid ff. apply isIdentifier_chars in Hid as (c & rest & Hb & Hc & Hall).
  set (sfx := if server then "#int,s" else "#int,c").
  assert (exists tl l, strings.bytes sfx = "#"%char :: tl
            /\ rev (strings.bytes sfx) = l :: rev ("#"%char :: removelast tl)
            /\ (utf8.byteval l <? utf8.RuneSelf) = true
            /\ unicode.IsSpace (utf8.byteval l) = false) as (tl & l & Hsfx & Hrev & Hl & Hl').
  { destruct server; do 2 eexists; repeat split. }
  assert (strings.TrimSpace (name +:+ sfx) = name +:+ sfx) as Htrim.
  { destruct (isNameChar_facts c) as (A1 & A2 & _); [now apply isNameStart_isNameChar |].
    eapply (TrimSpace_fixed _ c l); eauto.
    - rewrite bytes_app, Hb. reflexivity.
    - rewrite bytes_app, rev_app_distr, Hrev. reflexivity. }
  unfold parseCell. rewrite Htrim.
  assert (name +:+ sfx <> "") as Hne.
  { intros E. apply (f_equal strings.bytes) in E. rewrite bytes_app, Hb in E. discriminate. }
  destruct (String.eqb_spec (name +:+ sfx) ""); [contradiction |].
  assert (strings.ToLower (name +:+ sfx)
          = strings.str (map strings.lowerByte (c :: rest)) +:+ sfx) as Hlow.
  { unfold strings.ToLower, strings.isASCII. rewrite bytes_app, Hb, forallb_app.
    assert (forallb (fun c => utf8.byteval c <? utf8.RuneSelf) (c :: rest) = true) as ->.
    { apply forallb_forall. intros x Hx. rewrite List.Forall_forall in Hall.
      now destruct (isNameChar_facts x (Hall x Hx)). }
    rewrite map_app, str_app. destruct server; reflexivity. }
  assert (Forall (fun x => x <> "#"%char) (map strings.lowerByte (c :: rest))) as Hnh.
  { apply List.Forall_forall. intros x (y & <- & Hy)%in_map_iff. rewrite List.Forall_forall in Hall.
    now destruct (isNameChar_facts y (Hall y Hy)) as (_ & _ & _ & ? & _). }
  rewrite Hlow, !(Contains_after_identifier _ _ _ Hnh).
  assert (fieldRe (name +:+ sfx)
          = Some (name, "int", if server then "s" else "c")) as ->.
  { unfold fieldRe. rewrite bytes_app, Hb, Hsfx.
    assert (regexp.skipSpace ((c :: rest) ++ "#"%char :: tl)%list
            = ((c :: rest) ++ "#"%char :: tl)%list) as ->.
    { unfold regexp.skipSpace. simpl.
      destruct (isNameChar_facts c) as (_ & _ & -> & _); [now apply isNameStart_isNameChar |].
      reflexivity. }
    rewrite (span_identifier _ _ Hall). rewrite Hc. simpl negb. cbv iota.
    rewrite <- Hb, str_bytes.
    destruct server; injection Hsfx as <-; reflexivity. }
  destruct server; reflexivity.
Qed.

Lemma appended_Col (defineRow : Z) (exportFlag : string) (row : list string)
    (g : Field) :
  In g (appended defineRow exportFlag 0 row) ->
  exists (j : nat) c,
    row !! j = Some c /\ Col g = Z.of_nat j
    /\ parseCell defineRow exportFlag (Z.of_nat j) c = Append g.
Proof.
  intros (j & c & Hj & Hc)%appended_In. exists j, c. rewrite Z.add_0_l in Hc.
  repeat split; auto.
  apply parseCell_Append_inv in Hc as (n & t & fl & gt & _ & _ & _ & ->).
  reflexivity.
Qed.

(** C6. In a parsed field list, a cell name#int,s of the define row (a
    ServerOnly field) is present when the filter is absent or server and
    has no field when the filter is client; symmetrically a cell
    name#int,c is present when the filter is absent or client and has no
    field when the filter is server; under the filter server no field of
    the list is ClientOnly, under client none is ServerOnly; and with no
    filter every cell that defines a field has its field in the list. *)
Theorem C6_visibility_filter (rows : list (list string)) (defineRow : Z)
    (exportFlag : string) (fields : list Field) :
  parseFieldsFromDefineRow rows defineRow exportFlag = Ok fields ->
  let row := index [] rows (defineRow - 1) in
  (forall (i : nat) (name : string),
     isIdentifier name = true ->
     row !! i = Some (name +:+ "#int,s") ->
     (exportFlag = "" \/ exportFlag = "server" ->
        In (mkField name (exportName name) "int" "int" (Z.of_nat i)
                    FieldFlagServer true false) fields)
     /\ (exportFlag = "client" -> forall g, In g fields -> Col g <> Z.of_nat i))
  /\ (forall (i : nat) (name : string),
        isIdentifier name = true ->
        row !! i = Some (name +:+ "#int,c") ->
        (exportFlag = "" \/ exportFlag = "client" ->
           In (mkField name (exportName name) "int" "int" (Z.of_nat i)
                       FieldFlagClient true false) fields)
        /\ (exportFlag = "server" -> forall g, In g fields -> Col g <> Z.of_nat i))
  /\ (exportFlag = "server" -> forall g, In g fields -> Flag g <> FieldFlagClient)
  /\ (exportFlag = "client" -> forall g, In g fields -> Flag g <> FieldFlagServer)
  /\ (exportFlag = "" ->
      forall (i : nat) rawCell rawName rawType flagCh,
        row !! i = Some rawCell ->
        definesField rawCell rawName rawType flagCh ->
        exists goType,
          mapGoType rawType = Some goType
          /\ In (mkField rawName (exportName rawName) rawType goType (Z.of_nat i)
                         (flagOf flagCh) true false) fields).
Proof.
  intros Hok row. apply parseFields_Ok_inv in Hok as (_ & Hn & ->). fold row in Hn |- *.
  assert (forall (server : bool) (i : nat) (name : string),
    isIdentifier name = true ->
    row !! i = Some (name +:+ (if server then "#int,s" else "#int,c")) ->
    let ff := if server then FieldFlagServer else FieldFlagClient in
    (applyFilter exportFlag ff = Kept ->
       In (mkField name (exportName name) "int" "int" (Z.of_nat i) ff true false)
          (appended defineRow exportFlag 0 row))
    /\ (applyFilter exportFlag ff = Dropped ->
        forall g, In g (appended defineRow exportFlag 0 row) -> Col g <> Z.of_nat i))
    as Hcell.
  { intros server i name Hid Hi ff.
    pose proof (parseCell_flagged defineRow exportFlag (Z.of_nat i) name server Hid) as Hc.
    cbv zeta in Hc. fold ff in Hc. split; intros Hf; rewrite Hf in Hc.
    - apply appended_In. eexists i, _. rewrite Z.add_0_l. eauto.
    - intros g (j & c & Hj & Hcol & Hg)%appended_Col E.
      rewrite Hcol in E. apply Nat2Z.inj in E. subst j.
      rewrite Hi in Hj. injection Hj as <-. congruence. }
  repeat split.
  - intros [-> | ->]; now apply (Hcell true i name).
  - intros ->. now apply (Hcell true i name).
  - intros [-> | ->]; now apply (Hcell false i name).
  - intros ->. now apply (Hcell false i name).
  - intros -> g (j & c & _ & _ & Hg)%appended_Col Hfl.
    apply parseCell_Append_inv in Hg as (n & t & fl & gt & _ & _ & Hk & ->).
    simpl in Hfl. rewrite Hfl in Hk. discriminate.
  - intros -> g (j & c & _ & _ & Hg)%appended_Col Hfl.
    apply parseCell_Append_inv in Hg as (n & t & fl & gt & _ & _ & Hk & ->).
    simpl in Hfl. rewrite Hfl in Hk. discriminate.
  - intros -> i rawCell rawName rawType flagCh Hi Hdef.
    pose proof (parseCell_definesField defineRow "" (Z.of_nat i) _ _ _ _ Hdef) as Hc.
    change (applyFilter "" (flagOf flagCh)) with Kept in Hc. cbv iota in Hc.
    destruct (mapGoType rawType) as [goType |].
    + exists goType. split; [reflexivity |].
      apply appended_In. exists i, rawCell. rewrite Z.add_0_l. auto.
    + destruct (Hn i rawCell (UnsupportedTypeError rawType) Hi).
      now rewrite Z.add_0_l.
Qed.

Definition visibilityRow : list (list string) :=
  [["hp#int,s"; "mp#int,c"; "lv#int"]].

End Visibility.

Lemma C6_visibility_witness :
  (forall T : CaseTables,
     parseFieldsFromDefineRow visibilityRow 1 "client"
     = Ok [mkField "mp" "Mp" "int" "int" 1 FieldFlagClient true false;
           mkField "lv" "Lv" "int" "int" 2 FieldFlagAll true false])
  /\ (forall g,
        In g [mkField "mp" "Mp" "int" "int" 1 FieldFlagClient true false;
              mkField "lv" "Lv" "int" "int" 2 FieldFlagAll true false] ->
        Col g <> 0)
  /\ In (mkField "mp" "Mp" "int" "int" 1 FieldFlagClient true false)
        [mkField "mp" "Mp" "int" "int" 1 FieldFlagClient true false;
         mkField "lv" "Lv" "int" "int" 2 FieldFlagAll true false].
Proof.
  split; [reflexivity |].
  pose proof (C6_visibility_filter (T := caselessTables) visibilityRow 1 "client" _ eq_refl)
    as H.
  cbv zeta in H. destruct H as (Hs & Hc & _).
  split.
  - exact (proj2 (Hs 0%nat "hp" eq_refl eq_refl) eq_refl).
  - exact (proj1 (Hc 1%nat "mp" eq_refl eq_refl) (or_intror eq_refl)).
Defined.

Section DuplicateNames.

Context {T : CaseTables}.

(** ** C10: duplicate raw names *)

Lemma appended_columns (defineRow : Z) (exportFlag : string) (row : list string) :
  forall colIdx,
    Forall (fun f => colIdx <= Col f) (appended defineRow exportFlag colIdx row)
    /\ forall pre f post,
         appended defineRow exportFlag colIdx row = (pre ++ f :: post)%list ->
         Forall (fun g => Col f < Col g) post.
Proof.
  induction row as [| c row IH]; intros colIdx; simpl.
  - split; [constructor |]. intros [| p0 pre] f post H; discriminate.
  - destruct (IH (colIdx + 1)) as [Hge Hsorted].
    assert (Forall (fun f => colIdx <= Col f)
              (appended defineRow exportFlag (colIdx + 1) row)) as Hge'.
    { eapply Forall_impl; [exact Hge |]. simpl. intros; lia. }
    assert (forall pre f post,
              appended defineRow exportFlag (colIdx + 1) row = (pre ++ f :: post)%list ->
              Forall (fun g => Col f < Col g) post) as Hs' by exact Hsorted.
    destruct (parseCell defineRow exportFlag colIdx c) as [| f0 | e] eqn:E; auto.
    split.
    + constructor; [| exact Hge'].
      apply parseCell_Append_inv in E as (n & t & fl & gt & _ & _ & _ & ->).
      simpl. lia.
    + intros [| f1 pre] f post H; simpl in H; injection H as <- H.
      * rewrite <- H.
        apply parseCell_Append_inv in E as (n & t & fl & gt & _ & _ & _ & ->).
        eapply Forall_impl; [exact Hge |]. simpl. intros; lia.
      * eauto.
Qed.

Section Records.

Variable ParseFloat : string -> option float64.

Lemma readFields_preserve (r : Z) (row : list string) (k : string) :
  forall fields obj obj',
    readFields ParseFloat r row fields obj = Ok obj' ->
    Forall (fun g => RawName g <> k) fields ->
    obj' !! k = obj !! k.
Proof.
  induction fields as [| f fields IH]; intros obj obj' H Hk; simpl in H.
  - now injection H as <-.
  - inversion Hk as [| ? ? Hf Hrest]; subst.
    destruct (parseCellValue ParseFloat (RawType f) (cellOf row f)) as [v | e];
      [| discriminate].
    rewrite (IH _ _ H Hrest). now apply lookup_insert_ne.
Qed.

(** After the loop over the fields, a raw name is bound to the value of
    the last field of that name. *)
Lemma readFields_last (r : Z) (row : list string) :
  forall pre f post obj obj',
    readFields ParseFloat r row (pre ++ f :: post) obj = Ok obj' ->
    Forall (fun g => RawName g <> RawName f) post ->
    exists v,
      parseCellValue ParseFloat (RawType f) (cellOf row f) = Ok v
      /\ obj' !! RawName f = Some v.
Proof.
  induction pre as [| p pre IH]; intros f post obj obj' H Hpost; simpl in H.
  - destruct (parseCellValue ParseFloat (RawType f) (cellOf row f)) as [v | e];
      [| discriminate].
    exists v. split; [reflexivity |].
    rewrite (readFields_preserve _ _ _ _ _ _ H Hpost). apply lookup_insert_eq.
  - destruct (parseCellValue ParseFloat (RawType p) (cellOf row p)) as [v | e];
      [| discriminate].
    eauto.
Qed.

(** The success of the loop over the fields does not depend on the row
    number, which only the error message uses. *)
Definition recordOf (fields : list Field) (row : list string)
    (item : gmap string value) : Prop :=
  exists r, readFields ParseFloat r row fields ∅ = Ok item.

Lemma readRows_records (fields : list Field) (rows : list (list string)) :
  forall r items items',
    readRows ParseFloat r rows fields items = Ok items' ->
    exists new,
      items' = (items ++ new)%list
      /\ Forall2 (recordOf fields) (filter (fun row => negb (isEmptyRow row)) rows) new.
Proof.
  induction rows as [| row rows IH]; intros r items items' H; simpl in H.
  - injection H as <-. exists []. rewrite app_nil_r. split; [reflexivity | constructor].
  - rewrite filter_cons. destruct (isEmptyRow row) eqn:E.
    + rewrite decide_False by (simpl; tauto). eauto.
    + rewrite decide_True by (simpl; tauto).
      destruct (readFields ParseFloat r row fields ∅) as [obj | e] eqn:Eo;
        [| discriminate].
      simpl in H. apply IH in H as (new & -> & Hnew).
      exists (obj :: new). rewrite <- app_assoc. split; [reflexivity |].
      constructor; [now exists r | exact Hnew].
Qed.

End Records.

(** *** When the rows are read without error *)

Section DataRows.

Variable ParseFloat : string -> option float64.

(** Every cell that [fields] reads in [row] decodes. *)
Definition decodes (row : list string) (fields : list Field) : Prop :=
  forall f, In f fields ->
    exists v, parseCellValue ParseFloat (RawType f) (cellOf row f) = Ok v.

(** The field [f] is the first of [fields] whose cell in [row] does not
    decode, and [cause] is the error of the decoder. *)
Definition firstBadCell (row : list string) (fields : list Field) (f : Field)
    (cause : error) : Prop :=
  exists pre post,
    fields = (pre ++ f :: post)%list
    /\ decodes row pre
    /\ parseCellValue ParseFloat (RawType f) (cellOf row f) = Err cause.

Lemma decodes_cons (row : list string) (f : Field) (fields : list Field) :
  decodes row (f :: fields) <->
  (exists v, parseCellValue ParseFloat (RawType f) (cellOf row f) = Ok v)
  /\ decodes row fields.
Proof.
  unfold decodes. split.
  - intros H. split; [apply H; now left | intros g Hg; apply H; now right].
  - intros [Hf H] g [<- | Hg]; auto.
Qed.

Lemma readFields_Ok_iff (r : Z) (row : list string) (fields : list Field) :
  forall obj,
    (exists obj', readFields ParseFloat r row fields obj = Ok obj') <-> decodes row fields.
Proof.
  induction fields as [| f fields IH]; intros obj; simpl.
  - split; [intros _ g [] | eauto].
  - rewrite decodes_cons.
    destruct (parseCellValue ParseFloat (RawType f) (cellOf row f)) as [v | e].
    + rewrite IH. split; [eauto | tauto].
    + split; [intros [? [=]] | intros [[? [=]] _]].
Qed.

Lemma readFields_Err_iff (r : Z) (row : list string) (fields : list Field) (e : error) :
  forall obj,
    readFields ParseFloat r row fields obj = Err e <->
    exists f cause,
      firstBadCell row fields f cause
      /\ e = CellParseError (r + 1) (Col f + 1) (RawName f) cause.
Proof.
  induction fields as [| f fields IH]; intros obj; simpl.
  - split; [discriminate |].
    intros (g & cause & (pre & post & H & _) & _). now destruct pre.
  - destruct (parseCellValue ParseFloat (RawType f) (cellOf row f)) as [v | e0] eqn:E.
    + rewrite IH. split.
      * intros (g & cause & (pre & post & -> & Hpre & Hg) & ->).
        exists g, cause. split; [| reflexivity].
        exists (f :: pre), post. split; [reflexivity |]. split; [| exact Hg].
        apply decodes_cons. eauto.
      * intros (g & cause & (pre & post & Heq & Hpre & Hg) & ->).
        exists g, cause. split; [| reflexivity].
        destruct pre as [| p pre]; simpl in Heq; injection Heq as <- ->.
        { congruence. }
        apply decodes_cons in Hpre as [_ Hpre]. exists pre, post. auto.
    + split.
      * intros [= <-]. exists f, e0. split; [| reflexivity].
        exists [], fields. split; [reflexivity |]. split; [intros g [] | exact E].
      * intros (g & cause & (pre & post & Heq & Hpre & Hg) & ->).
        destruct pre as [| p pre]; simpl in Heq; injection Heq as <- ->.
        { congruence. }
        apply decodes_cons in Hpre as [[v Hv] _]. congruence.
Qed.

Lemma readFields_keys (r : Z) (row : list string) (fields : list Field) :
  forall obj obj',
    readFields ParseFloat r row fields obj = Ok obj' ->
    forall k, is_Some (obj' !! k) <-> is_Some (obj !! k) \/ In k (map RawName fields).
Proof.
  induction fields as [| f fields IH]; intros obj obj' H k; simpl in H.
  - injection H as <-. simpl. tauto.
  - destruct (parseCellValue ParseFloat (RawType f) (cellOf row f)) as [v | e];
      [| discriminate].
    rewrite (IH _ _ H k). simpl.
    destruct (decide (RawName f = k)) as [<- | Hne].
    + rewrite lookup_insert_eq. split; [auto |]. intros _. left. eauto.
    + rewrite lookup_insert_ne by exact Hne. tauto.
Qed.

(** What a record may hold under a key: a value of the Go type of one
    of the fields of that raw name, decoded from that field's cell. *)
Definition valueOf (row : list string) (fields : list Field) (k : string)
    (v : value) : Prop :=
  exists f,
    In f fields /\ RawName f = k
    /\ parseCellValue ParseFloat (RawType f) (cellOf row f) = Ok v.

Lemma readFields_values (r : Z) (row : list string) (all : list Field) :
  forall fields obj obj',
    (forall f, In f fields -> In f all) ->
    readFields ParseFloat r row fields obj = Ok obj' ->
    (forall k v, obj !! k = Some v -> valueOf row all k v) ->
    forall k v, obj' !! k = Some v -> valueOf row all k v.
Proof.
  induction fields as [| f fields IH]; intros obj obj' Hsub H Hobj; simpl in H.
  - now injection H as <-.
  - destruct (parseCellValue ParseFloat (RawType f) (cellOf row f)) as [v0 | e] eqn:E;
      [| discriminate].
    eapply IH; [| exact H |].
    + intros g Hg. apply Hsub. now right.
    + intros k v. destruct (decide (RawName f = k)) as [<- | Hne].
      * rewrite lookup_insert_eq. intros [= <-]. exists f.
        split; [apply Hsub; now left | auto].
      * rewrite lookup_insert_ne by exact Hne. apply Hobj.
Qed.

Lemma readRows_Err_iff (fields : list Field) (rows : list (list string)) (e : error) :
  forall r items,
    readRows ParseFloat r rows fields items = Err e <->
    exists (j : nat) row,
      rows !! j = Some row
      /\ isEmptyRow row = false
      /\ (forall (j' : nat) row',
             (j' < j)%nat -> rows !! j' = Some row' ->
             isEmptyRow row' = true \/ decodes row' fields)
      /\ readFields ParseFloat (r + Z.of_nat j) row fields ∅ = Err e.
Proof.
  induction rows as [| row rows IH]; intros r items; simpl.
  - split; [discriminate | intros (j & row & H & _); discriminate H].
  - destruct (isEmptyRow row) eqn:Eempty.
    + rewrite IH. split.
      * intros (j & row0 & Hj & He & Hbefore & Hread).
        exists (S j), row0. split; [exact Hj |]. split; [exact He |]. split.
        -- intros [| j'] row' Hlt Hrow'; simpl in Hrow'.
           ++ injection Hrow' as <-. now left.
           ++ apply (Hbefore j'); [lia | exact Hrow'].
        -- now replace (r + Z.of_nat (S j)) with (r + 1 + Z.of_nat j) by lia.
      * intros ([| j] & row0 & Hj & He & Hbefore & Hread); simpl in Hj.
        { injection Hj as <-. congruence. }
        exists j, row0. split; [exact Hj |]. split; [exact He |]. split.
        -- intros j' row' Hlt Hrow'. apply (Hbefore (S j')); [lia | exact Hrow'].
        -- now replace (r + 1 + Z.of_nat j) with (r + Z.of_nat (S j)) by lia.
    + destruct (readFields ParseFloat r row fields ∅) as [obj | e0] eqn:Eo; simpl.
      * assert (decodes row fields) as Hdec by (apply (readFields_Ok_iff r row fields ∅); eauto).
        rewrite IH. split.
        -- intros (j & row0 & Hj & He & Hbefore & Hread).
           exists (S j), row0. split; [exact Hj |]. split; [exact He |]. split.
           ++ intros [| j'] row' Hlt Hrow'; simpl in Hrow'.
              ** injection Hrow' as <-. now right.
              ** apply (Hbefore j'); [lia | exact Hrow'].
           ++ now replace (r + Z.of_nat (S j)) with (r + 1 + Z.of_nat j) by lia.
        -- intros ([| j] & row0 & Hj & He & Hbefore & Hread); simpl in Hj.
           { injection Hj as <-. rewrite Z.add_0_r in Hread. congruence. }
           exists j, row0. split; [exact Hj |]. split; [exact He |]. split.
           ++ intros j' row' Hlt Hrow'. apply (Hbefore (S j')); [lia | exact Hrow'].
           ++ now replace (r + 1 + Z.of_nat j) with (r + Z.of_nat (S j)) by lia.
      * split.
        -- intros [= <-]. exists 0%nat, row. split; [reflexivity |].
           split; [exact Eempty |]. split; [intros j' row' Hlt; lia |].
           now rewrite Z.add_0_r.
        -- intros ([| j] & row0 & Hj & He & Hbefore & Hread); simpl in Hj.
           { injection Hj as <-. rewrite Z.add_0_r in Hread. congruence. }
           destruct (Hbefore 0%nat row) as [H | H]; [lia | reflexivity | congruence |].
           apply (readFields_Ok_iff r row fields ∅) in H as [obj H]. congruence.
Qed.

Lemma readRows_Ok_iff (fields : list Field) (rows : list (list string)) :
  forall r items,
    (exists items', readRows ParseFloat r rows fields items = Ok items') <->
    forall (j : nat) row,
      rows !! j = Some row -> isEmptyRow row = true \/ decodes row fields.
Proof.
  induction rows as [| row rows IH]; intros r items; simpl.
  - split; [intros _ j row H; discriminate H | eauto].
  - destruct (isEmptyRow row) eqn:Eempty.
    + rewrite IH. split.
      * intros H [| j] row' Hj; simpl in Hj; [injection Hj as <-; now left | eauto].
      * intros H j row' Hj. apply (H (S j)). exact Hj.
    + destruct (readFields ParseFloat r row fields ∅) as [obj | e0] eqn:Eo; simpl.
      * rewrite IH. split.
        -- intros H [| j] row' Hj; simpl in Hj; [| eauto].
           injection Hj as <-. right.
           apply (readFields_Ok_iff r row fields ∅). eauto.
        -- intros H j row' Hj. apply (H (S j)). exact Hj.
      * split; [intros [? [=]] |]. intros H.
        destruct (H 0%nat row eq_refl) as [H0 | H0]; [congruence |].
        apply (readFields_Ok_iff r row fields ∅) in H0 as [obj H0]. congruence.
Qed.

End DataRows.

(** C10. Cells of the define row that carry the same raw name are not
    merged and raise no error: the parser returns one field descriptor
    for every cell whose turn appends one, in column order, and fails only
    where the turn of some cell fails or no cell appends; in particular
    every cell that defines a field which the export flag does not hide
    has its own descriptor in the schema, at its own column. The rows are
    read into records whenever every cell that a field reads in a row
    that is not blank decodes, one record for each such row, and every
    record binds a raw name to one value, the one decoded from the cell of
    the rightmost field of that name (the one of highest column); what
    the columns further left held under that name is not in the record. *)
Theorem C10_duplicate_raw_names (ParseFloat : string -> option float64)
    (rows : list (list string)) (defineRow : Z) (exportFlag : string) :
  let row := index [] rows (defineRow - 1) in
  let kept := appended defineRow exportFlag 0 row in
  (0 < defineRow <= len rows -> noReturn defineRow exportFlag 0 row -> kept <> [] ->
     parseFieldsFromDefineRow rows defineRow exportFlag = Ok kept)
  /\ (forall fields,
        parseFieldsFromDefineRow rows defineRow exportFlag = Ok fields ->
        fields = kept
        /\ (forall (i : nat) c f,
              row !! i = Some c ->
              parseCell defineRow exportFlag (Z.of_nat i) c = Append f ->
              In f fields /\ Col f = Z.of_nat i)
        /\ (forall (i : nat) rawCell rawName rawType flagCh,
              row !! i = Some rawCell ->
              definesField rawCell rawName rawType flagCh ->
              ~ hidden exportFlag flagCh ->
              exists goType,
                mapGoType rawType = Some goType
                /\ In (mkField rawName (exportName rawName) rawType goType (Z.of_nat i)
                               (flagOf flagCh) true false) fields)
        /\ (forall pre f post,
              fields = (pre ++ f :: post)%list -> Forall (fun g => Col f < Col g) post)
        /\ (forall dataStartRow items,
              readHorizontalItems ParseFloat rows dataStartRow fields = Ok items ->
              Forall2
                (fun dataRow item =>
                   forall f,
                     In f fields ->
                     (forall g, In g fields -> RawName g = RawName f -> Col g <= Col f) ->
                     exists v,
                       parseCellValue ParseFloat (RawType f) (cellOf dataRow f) = Ok v
                       /\ item !! RawName f = Some v)
                (filter (fun r => negb (isEmptyRow r))
                   (drop (Z.to_nat ((if dataStartRow <=? 0 then 1 else dataStartRow) - 1))
                      rows))
                items)
        /\ (forall dataStartRow,
              (forall dataRow f,
                 In dataRow
                    (filter (fun r => negb (isEmptyRow r))
                       (drop (Z.to_nat ((if dataStartRow <=? 0 then 1 else dataStartRow) - 1))
                          rows)) ->
                 In f fields ->
                 exists v, parseCellValue ParseFloat (RawType f) (cellOf dataRow f) = Ok v) ->
              exists items,
                readHorizontalItems ParseFloat rows dataStartRow fields = Ok items)).
Proof.
  intros row kept. split.
  - intros Hr Hn Hne. rewrite (parseFields_unfold _ _ _ Hr). fold row.
    assert (parseCells defineRow exportFlag 0 row [] = Ok kept) as ->
      by (apply parseCells_Ok; auto).
    destruct kept; [contradiction | reflexivity].
  - intros fields Hok. apply parseFields_Ok_inv in Hok as (Hr & Hn & ->).
    fold row in Hn |- *. fold kept.
    split; [reflexivity |]. split; [| split; [| split; [| split]]].
    + intros i c f Hi Hc. split.
      * apply appended_In. exists i, c. now rewrite Z.add_0_l.
      * apply parseCell_Append_inv in Hc as (n & t & fl & gt & _ & _ & _ & ->).
        reflexivity.
    + intros i rawCell rawName rawType flagCh Hi Hdef Hvis.
      pose proof (parseCell_definesField defineRow exportFlag (Z.of_nat i) _ _ _ _ Hdef)
        as Hc.
      pose proof (applyFilter_spec exportFlag flagCh) as Hf.
      destruct (applyFilter exportFlag (flagOf flagCh)).
      * destruct (mapGoType rawType) as [goType |].
        -- exists goType. split; [reflexivity |].
           apply appended_In. exists i, rawCell. rewrite Z.add_0_l. auto.
        -- destruct (Hn i rawCell (UnsupportedTypeError rawType) Hi).
           now rewrite Z.add_0_l.
      * tauto.
      * destruct (Hn i rawCell (InvalidFlagError exportFlag) Hi). now rewrite Z.add_0_l.
    + apply appended_columns.
    + intros dataStartRow items Hread. unfold readHorizontalItems in Hread.
      apply readRows_records in Hread as (new & -> & Hrec). simpl.
      eapply Forall2_impl; [exact Hrec |]. clear Hrec.
      intros dataRow item [r Hitem] f Hin Hmax.
      apply in_split in Hin as (pre & post & Hsplit).
      rewrite Hsplit in Hitem. eapply readFields_last; [exact Hitem |].
      pose proof (proj2 (appended_columns defineRow exportFlag row 0) _ _ _ Hsplit) as Hlt.
      rewrite List.Forall_forall in Hlt |- *. intros g Hg Hname.
      specialize (Hlt g Hg).
      assert (Col g <= Col f); [| lia].
      apply Hmax; [| exact Hname].
      fold kept. rewrite Hsplit. apply in_or_app. right. now right.
    + intros dataStartRow Hall. unfold readHorizontalItems.
      apply readRows_Ok_iff. intros j dataRow Hj.
      destruct (isEmptyRow dataRow) eqn:Eempty; [now left | right].
      intros f Hf. apply Hall; [| exact Hf].
      apply list_elem_of_In, list_elem_of_filter. split.
      * rewrite Eempty. exact I.
      * eapply list_elem_of_lookup_2. exact Hj.
Qed.

Definition duplicateRows : list (list string) :=
  [["id#int"; "id#string"]; ["7"; "seven"]].

Definition duplicateFields : list Field :=
  [mkField "id" "Id" "int" "int" 0 FieldFlagAll true false;
   mkField "id" "Id" "string" "string" 1 FieldFlagAll true false].

End DuplicateNames.

(** Two columns named id: both descriptors are kept, the data row is
    read into one record, and the record holds under id the value of the
    right column. *)
Lemma C10_duplicate_names_witness :
  (forall T : CaseTables,
     parseFieldsFromDefineRow duplicateRows 1 "" = Ok duplicateFields)
  /\ (forall (T : CaseTables) (ParseFloat : string -> option float64),
        readHorizontalItems ParseFloat duplicateRows 2 duplicateFields
        = Ok [{["id" := VString "seven"]}])
  /\ (forall (T : CaseTables) (ParseFloat : string -> option float64) items,
        readHorizontalItems ParseFloat duplicateRows 2 duplicateFields = Ok items ->
        exists item, items = [item] /\ item !! "id" = Some (VString "seven")).
Proof.
  split; [reflexivity |]. split; [reflexivity |]. intros T ParseFloat items Hread.
  destruct (C10_duplicate_raw_names ParseFloat duplicateRows 1 "") as [_ H].
  destruct (H duplicateFields eq_refl) as (_ & _ & _ & _ & Hitems & _).
  specialize (Hitems 2 items Hread). simpl in Hitems.
  inversion Hitems as [| row item rows' items' Hitem Hrest]; subst.
  inversion Hrest; subst. exists item. split; [reflexivity |].
  destruct (Hitem (mkField "id" "Id" "string" "string" 1 FieldFlagAll true false))
    as (v & Hv & Hlookup).
  - right. left. reflexivity.
  - intros g [<- | [<- | []]] _; simpl; lia.
  - injection Hv as <-. exact Hlookup.
Defined.

Section Emitters.

Context {T : CaseTables}.

(** ** C1: what the emitters check *)

(** The loops of the C# and of the TypeScript emitter have one shape:
    the loop over the fields looks the raw type up and either returns
    the error or writes a line; the loop over the types writes a header,
    runs the loop over the fields, writes a footer. *)
Section EmitterLoops.

Variable mapType : string -> option string.
Variable line : string -> Field -> string -> string.
Variable fieldsLoop : string -> list Field -> result string.
Variables opening closing : string -> string -> string.
Variable typesLoop : gmap string (list Field) -> string -> list string -> result string.

Hypothesis fieldsLoop_nil : forall b, fieldsLoop b [] = Ok b.
Hypothesis fieldsLoop_cons : forall b f rest,
  fieldsLoop b (f :: rest) =
  match mapType (RawType f) with
  | None => Err (UnsupportedTypeError (RawType f))
  | Some t => fieldsLoop (line b f t) rest
  end.
Hypothesis typesLoop_nil : forall schemas b, typesLoop schemas b [] = Ok b.
Hypothesis typesLoop_cons : forall schemas b typeName rest,
  typesLoop schemas b (typeName :: rest) =
  b' ← fieldsLoop (opening b typeName) (schemas !!! typeName);
  typesLoop schemas (closing b' typeName) rest.
Hypothesis line_reads : forall b f g t,
  RawName f = RawName g -> Name f = Name g -> line b f t = line b g t.

(** The first field of the list whose raw type is not in the table. *)
Fixpoint firstUnmapped (fields : list Field) : option Field :=
  match fields with
  | [] => None
  | f :: rest =>
    match mapType (RawType f) with
    | None => Some f
    | Some _ => firstUnmapped rest
    end
  end.

Lemma firstUnmapped_Some (fields : list Field) (f : Field) :
  firstUnmapped fields = Some f -> In f fields /\ mapType (RawType f) = None.
Proof.
  induction fields as [| g fields IH]; simpl; [discriminate |].
  destruct (mapType (RawType g)) eqn:E.
  - intros H. destruct (IH H). auto.
  - intros [= <-]. auto.
Qed.

Lemma firstUnmapped_None (fields : list Field) :
  firstUnmapped fields = None <->
  forall f, In f fields -> is_Some (mapType (RawType f)).
Proof.
  induction fields as [| g fields IH]; simpl.
  - split; [intros _ f [] | reflexivity].
  - destruct (mapType (RawType g)) eqn:E.
    + rewrite IH. split.
      * intros H f [<- | Hf]; [rewrite E; eauto | auto].
      * intros H f Hf. auto.
    + split; [discriminate |]. intros H.
      destruct (H g (or_introl eq_refl)) as [t Ht]. congruence.
Qed.

Lemma firstUnmapped_app (a b : list Field) :
  firstUnmapped (a ++ b) =
  match firstUnmapped a with
  | Some f => Some f
  | None => firstUnmapped b
  end.
Proof.
  induction a as [| g a IH]; simpl; [reflexivity |].
  now destruct (mapType (RawType g)).
Qed.

Lemma fieldsLoop_result (fields : list Field) :
  forall b,
    match firstUnmapped fields with
    | Some f => fieldsLoop b fields = Err (UnsupportedTypeError (RawType f))
    | None => exists b', fieldsLoop b fields = Ok b'
    end.
Proof.
  induction fields as [| g fields IH]; intros b; simpl.
  - rewrite fieldsLoop_nil. eauto.
  - rewrite fieldsLoop_cons. destruct (mapType (RawType g)); [apply IH | reflexivity].
Qed.

Lemma typesLoop_result (schemas : gmap string (list Field)) (typeNames : list string) :
  forall b,
    match firstUnmapped (emittedFields typeNames schemas) with
    | Some f => typesLoop schemas b typeNames = Err (UnsupportedTypeError (RawType f))
    | None => exists b', typesLoop schemas b typeNames = Ok b'
    end.
Proof.
  induction typeNames as [| typeName rest IH]; intros b.
  - simpl. rewrite typesLoop_nil. eauto.
  - unfold emittedFields in *. simpl. rewrite firstUnmapped_app, typesLoop_cons.
    pose proof (fieldsLoop_result (schemas !!! typeName) (opening b typeName)) as Hf.
    destruct (firstUnmapped (schemas !!! typeName)) as [f |].
    + now rewrite Hf.
    + destruct Hf as [b' ->]. simpl. apply IH.
Qed.

(** Two field lists that differ at most in the Go type stored in their
    fields. *)
Definition sameButGoType (f g : Field) : Prop :=
  RawName f = RawName g /\ Name f = Name g /\ RawType f = RawType g.

Lemma fieldsLoop_reads (fs gs : list Field) :
  Forall2 sameButGoType fs gs -> forall b, fieldsLoop b fs = fieldsLoop b gs.
Proof.
  induction 1 as [| f g fs gs (Hn & Hx & Ht) _ IH]; intros b; [reflexivity |].
  rewrite !fieldsLoop_cons, <- Ht.
  destruct (mapType (RawType f)); [| reflexivity].
  rewrite (line_reads b f g s Hn Hx). apply IH.
Qed.

Lemma typesLoop_reads (schemas schemas' : gmap string (list Field))
    (typeNames : list string) :
  (forall typeName, Forall2 sameButGoType (schemas !!! typeName) (schemas' !!! typeName)) ->
  forall b, typesLoop schemas b typeNames = typesLoop schemas' b typeNames.
Proof.
  intros Hs. induction typeNames as [| typeName rest IH]; intros b.
  - now rewrite !typesLoop_nil.
  - rewrite !typesLoop_cons, (fieldsLoop_reads _ _ (Hs typeName)).
    destruct (fieldsLoop _ _); simpl; [apply IH | reflexivity].
Qed.

(** What the loops write when every raw type is in the table: each
    line is appended to the text, with the type that the table gives
    for the raw type of the field. *)
Variable piece : Field -> string -> string.
Variables openText closeText : string -> string.

Hypothesis line_piece : forall b f t, line b f t = b +:+ piece f t.
Hypothesis opening_text : forall b typeName, opening b typeName = b +:+ openText typeName.
Hypothesis closing_text : forall b typeName, closing b typeName = b +:+ closeText typeName.

Definition typeOf (f : Field) : string := default "" (mapType (RawType f)).

Lemma fieldsLoop_text (fields : list Field) :
  forall b,
    firstUnmapped fields = None ->
    fieldsLoop b fields
    = Ok (b +:+ strings.Join (map (fun f => piece f (typeOf f)) fields)).
Proof.
  induction fields as [| g fields IH]; intros b; simpl.
  - intros _. rewrite fieldsLoop_nil. unfold strings.Join. simpl.
    now rewrite append_empty.
  - rewrite fieldsLoop_cons. unfold typeOf at 1.
    destruct (mapType (RawType g)) as [t |]; [| discriminate].
    intros H. rewrite (IH _ H), line_piece, append_assoc. reflexivity.
Qed.

Lemma typesLoop_text (schemas : gmap string (list Field)) (typeNames : list string) :
  forall b,
    firstUnmapped (emittedFields typeNames schemas) = None ->
    typesLoop schemas b typeNames
    = Ok (b +:+ strings.Join
                  (map (fun typeName =>
                          openText typeName
                          +:+ strings.Join
                                (map (fun f => piece f (typeOf f)) (schemas !!! typeName))
                          +:+ closeText typeName)
                       typeNames)).
Proof.
  induction typeNames as [| typeName rest IH]; intros b.
  - intros _. rewrite typesLoop_nil. unfold strings.Join. simpl.
    now rewrite append_empty.
  - unfold emittedFields in *. simpl. rewrite firstUnmapped_app, typesLoop_cons.
    destruct (firstUnmapped (schemas !!! typeName)) as [f |] eqn:E; [discriminate |].
    intros H. rewrite (fieldsLoop_text _ _ E). simpl.
    rewrite (IH _ H), closing_text, opening_text, !append_assoc. reflexivity.
Qed.

(** The first field that the table lacks, said without the loop. *)
Definition firstUnmappedAt (fields : list Field) (f : Field) : Prop :=
  exists pre post,
    fields = (pre ++ f :: post)%list
    /\ (forall g, In g pre -> is_Some (mapType (RawType g)))
    /\ mapType (RawType f) = None.

Lemma firstUnmapped_Some_iff (fields : list Field) (f : Field) :
  firstUnmapped fields = Some f <-> firstUnmappedAt fields f.
Proof.
  induction fields as [| g fields IH]; simpl.
  - split; [discriminate |]. intros (pre & post & H & _). now destruct pre.
  - destruct (mapType (RawType g)) as [t |] eqn:E.
    + rewrite IH. split.
      * intros (pre & post & -> & Hpre & Hf). exists (g :: pre), post.
        split; [reflexivity |]. split; [| exact Hf].
        intros h [<- | Hh]; [rewrite E; eauto | auto].
      * intros (pre & post & Heq & Hpre & Hf).
        destruct pre as [| p pre]; simpl in Heq; injection Heq as <- ->.
        { congruence. }
        exists pre, post. split; [reflexivity |]. split; [| exact Hf].
        intros h Hh. apply Hpre. now right.
    + split.
      * intros [= <-]. exists [], fields. split; [reflexivity |].
        split; [intros h [] | exact E].
      * intros (pre & post & Heq & Hpre & Hf).
        destruct pre as [| p pre]; simpl in Heq; injection Heq as <- ->.
        { reflexivity. }
        destruct (Hpre g (or_introl eq_refl)) as [t Ht]. congruence.
Qed.

(** Either the table knows every raw type, or there is a first field
    whose raw type it lacks. *)
Lemma mapped_or_first (fields : list Field) :
  (forall f, In f fields -> is_Some (mapType (RawType f)))
  \/ exists f, firstUnmappedAt fields f.
Proof.
  destruct (firstUnmapped fields) as [f |] eqn:E.
  - right. exists f. now apply firstUnmapped_Some_iff.
  - left. now apply firstUnmapped_None.
Qed.

End EmitterLoops.

Definition csLine (b : string) (f : Field) (csType : string) : string :=
  b +:+ "    [JsonPropertyName(" +:+ dq +:+ RawName f +:+ dq +:+ ")]" +:+ nl
    +:+ "    public " +:+ csType +:+ " " +:+ Name f
    +:+ " { get; set; }" +:+ nl +:+ nl.

Definition tsLine (b : string) (f : Field) (tsType : string) : string :=
  b +:+ "  " +:+ RawName f +:+ ": " +:+ tsType +:+ ";" +:+ nl.

Lemma csLine_reads (b : string) (f g : Field) (t : string) :
  RawName f = RawName g -> Name f = Name g -> csLine b f t = csLine b g t.
Proof. unfold csLine. now intros -> ->. Qed.

Lemma tsLine_reads (b : string) (f g : Field) (t : string) :
  RawName f = RawName g -> Name f = Name g -> tsLine b f t = tsLine b g t.
Proof. unfold tsLine. now intros -> _. Qed.

Lemma csTypes_result (schemas : gmap string (list Field)) (typeNames : list string)
    (b : string) :
  match firstUnmapped mapCSType (emittedFields typeNames schemas) with
  | Some f => csTypes schemas b typeNames = Err (UnsupportedTypeError (RawType f))
  | None => exists b', csTypes schemas b typeNames = Ok b'
  end.
Proof.
  apply (typesLoop_result mapCSType csLine csFields
           (fun b typeName => b +:+ "public class " +:+ typeName +:+ nl +:+ "{" +:+ nl)
           (fun b _ => b +:+ "}" +:+ nl +:+ nl) csTypes); reflexivity.
Qed.

Lemma tsTypes_result (schemas : gmap string (list Field)) (typeNames : list string)
    (b : string) :
  match firstUnmapped mapTSType (emittedFields typeNames schemas) with
  | Some f => tsTypes schemas b typeNames = Err (UnsupportedTypeError (RawType f))
  | None => exists b', tsTypes schemas b typeNames = Ok b'
  end.
Proof.
  apply (typesLoop_result mapTSType tsLine tsFields
           (fun b typeName => b +:+ "export interface " +:+ typeName +:+ " {" +:+ nl)
           (fun b _ => b +:+ "}" +:+ nl +:+ nl) tsTypes); reflexivity.
Qed.

Lemma csTypes_reads (schemas schemas' : gmap string (list Field))
    (typeNames : list string) (b : string) :
  (forall typeName, Forall2 sameButGoType (schemas !!! typeName) (schemas' !!! typeName)) ->
  csTypes schemas b typeNames = csTypes schemas' b typeNames.
Proof.
  intros H.
  apply (typesLoop_reads mapCSType csLine csFields
           (fun b typeName => b +:+ "public class " +:+ typeName +:+ nl +:+ "{" +:+ nl)
           (fun b _ => b +:+ "}" +:+ nl +:+ nl) csTypes);
    try reflexivity; auto using csLine_reads.
Qed.

Lemma tsTypes_reads (schemas schemas' : gmap string (list Field))
    (typeNames : list string) (b : string) :
  (forall typeName, Forall2 sameButGoType (schemas !!! typeName) (schemas' !!! typeName)) ->
  tsTypes schemas b typeNames = tsTypes schemas' b typeNames.
Proof.
  intros H.
  apply (typesLoop_reads mapTSType tsLine tsFields
           (fun b typeName => b +:+ "export interface " +:+ typeName +:+ " {" +:+ nl)
           (fun b _ => b +:+ "}" +:+ nl +:+ nl) tsTypes);
    try reflexivity; auto using tsLine_reads.
Qed.

(** Two field lists that differ at most in the raw type of their
    fields. *)
Definition sameButRawType (f g : Field) : Prop :=
  RawName f = RawName g /\ Name f = Name g /\ GoType f = GoType g.

Lemma goFields_reads (fs gs : list Field) :
  Forall2 sameButRawType fs gs ->
  forall b, fold_left goField fs b = fold_left goField gs b.
Proof.
  induction 1 as [| f g fs gs (Hn & Hx & Ht) _ IH]; intros b; [reflexivity |].
  simpl. unfold goField at 2 4. rewrite Hn, Hx, Ht. apply IH.
Qed.

Lemma goTypes_reads (schemas schemas' : gmap string (list Field))
    (typeNames : list string) :
  (forall typeName, Forall2 sameButRawType (schemas !!! typeName) (schemas' !!! typeName)) ->
  forall b, fold_left (goType schemas) typeNames b
            = fold_left (goType schemas') typeNames b.
Proof.
  intros H. induction typeNames as [| typeName rest IH]; intros b; [reflexivity |].
  simpl. unfold goType at 2 4. rewrite (goFields_reads _ _ (H typeName)). apply IH.
Qed.

(** *** The texts of the bundles, written out *)

(** The C# property of a field: its type is the one that the C# table
    gives for the raw type of the field. *)
Definition csProperty (f : Field) : string :=
  "    [JsonPropertyName(" +:+ dq +:+ RawName f +:+ dq +:+ ")]" +:+ nl
  +:+ "    public " +:+ typeOf mapCSType f +:+ " " +:+ Name f
  +:+ " { get; set; }" +:+ nl +:+ nl.

Definition csClass (schemas : gmap string (list Field)) (typeName : string) : string :=
  ("public class " +:+ typeName +:+ nl +:+ "{" +:+ nl)
  +:+ strings.Join (map csProperty (schemas !!! typeName))
  +:+ "}" +:+ nl +:+ nl.

Definition csRootProperty (typeName : string) : string :=
  "    [JsonPropertyName(" +:+ dq +:+ lowerFirst (pluralizeTypeName typeName) +:+ dq
  +:+ ")]" +:+ nl
  +:+ "    public List<" +:+ typeName +:+ "> " +:+ pluralizeTypeName typeName
  +:+ " { get; set; }" +:+ nl +:+ nl.

Definition csBundleText (rootName : string) (orderedTypeNames : list string)
    (schemas : gmap string (list Field)) : string :=
  TrimRightNewlines
    ("using System.Collections.Generic;" +:+ nl
     +:+ "using System.Text.Json.Serialization;" +:+ nl +:+ nl
     +:+ "public class " +:+ rootName +:+ nl +:+ "{" +:+ nl
     +:+ strings.Join (map csRootProperty orderedTypeNames)
     +:+ "}" +:+ nl +:+ nl
     +:+ strings.Join (map (csClass schemas) orderedTypeNames))
  +:+ nl.

(** The member of a TypeScript interface for a field: its type is the
    one that the TypeScript table gives for the raw type of the field. *)
Definition tsMember (f : Field) : string :=
  "  " +:+ RawName f +:+ ": " +:+ typeOf mapTSType f +:+ ";" +:+ nl.

Definition tsInterface (schemas : gmap string (list Field)) (typeName : string) : string :=
  ("export interface " +:+ typeName +:+ " {" +:+ nl)
  +:+ strings.Join (map tsMember (schemas !!! typeName))
  +:+ "}" +:+ nl +:+ nl.

Definition tsRootMemberText (typeName : string) : string :=
  "  " +:+ lowerFirst (pluralizeTypeName typeName) +:+ ": " +:+ typeName +:+ "[];" +:+ nl.

Definition tsBundleText (rootName : string) (orderedTypeNames : list string)
    (schemas : gmap string (list Field)) : string :=
  strings.Join (map (tsInterface schemas) orderedTypeNames)
  +:+ "export interface " +:+ rootName +:+ " {" +:+ nl
  +:+ strings.Join (map tsRootMemberText orderedTypeNames)
  +:+ "}" +:+ nl.

(** The field of a Go struct: its type is the Go type stored in the
    field. *)
Definition goStructField (f : Field) : string :=
  tab +:+ Name f +:+ " " +:+ GoType f
  +:+ " `json:" +:+ dq +:+ RawName f +:+ dq +:+ "`" +:+ nl.

Definition goStruct (schemas : gmap string (list Field)) (typeName : string) : string :=
  ("type " +:+ typeName +:+ " struct {" +:+ nl)
  +:+ strings.Join (map goStructField (schemas !!! typeName))
  +:+ "}" +:+ nl +:+ nl.

Definition goRootField (typeName : string) : string :=
  tab +:+ pluralizeTypeName typeName +:+ " []" +:+ typeName
  +:+ " `json:" +:+ dq +:+ lowerFirst (pluralizeTypeName typeName) +:+ dq +:+ "`" +:+ nl.

Definition goBundleText (pkg rootName : string) (orderedTypeNames : list string)
    (schemas : gmap string (list Field)) : string :=
  TrimRightNewlines
    ("package " +:+ pkg +:+ nl +:+ nl
     +:+ "type " +:+ rootName +:+ " struct {" +:+ nl
     +:+ strings.Join (map goRootField orderedTypeNames)
     +:+ "}" +:+ nl +:+ nl
     +:+ strings.Join (map (goStruct schemas) orderedTypeNames))
  +:+ nl.

Lemma csTypes_text (schemas : gmap string (list Field)) (typeNames : list string)
    (b : string) :
  firstUnmapped mapCSType (emittedFields typeNames schemas) = None ->
  csTypes schemas b typeNames
  = Ok (b +:+ strings.Join (map (csClass schemas) typeNames)).
Proof.
  intros H.
  refine (typesLoop_text mapCSType csLine csFields
            (fun b typeName => b +:+ "public class " +:+ typeName +:+ nl +:+ "{" +:+ nl)
            (fun b _ => b +:+ "}" +:+ nl +:+ nl) csTypes _ _ _ _
            (fun f t => "    [JsonPropertyName(" +:+ dq +:+ RawName f +:+ dq +:+ ")]" +:+ nl
                        +:+ "    public " +:+ t +:+ " " +:+ Name f
                        +:+ " { get; set; }" +:+ nl +:+ nl)
            (fun typeName => "public class " +:+ typeName +:+ nl +:+ "{" +:+ nl)
            (fun _ => "}" +:+ nl +:+ nl) _ _ _
            schemas typeNames b H); reflexivity.
Qed.

Lemma tsTypes_text (schemas : gmap string (list Field)) (typeNames : list string)
    (b : string) :
  firstUnmapped mapTSType (emittedFields typeNames schemas) = None ->
  tsTypes schemas b typeNames
  = Ok (b +:+ strings.Join (map (tsInterface schemas) typeNames)).
Proof.
  intros H.
  refine (typesLoop_text mapTSType tsLine tsFields
            (fun b typeName => b +:+ "export interface " +:+ typeName +:+ " {" +:+ nl)
            (fun b _ => b +:+ "}" +:+ nl +:+ nl) tsTypes _ _ _ _
            (fun f t => "  " +:+ RawName f +:+ ": " +:+ t +:+ ";" +:+ nl)
            (fun typeName => "export interface " +:+ typeName +:+ " {" +:+ nl)
            (fun _ => "}" +:+ nl +:+ nl) _ _ _
            schemas typeNames b H); reflexivity.
Qed.

Lemma goTypes_text (schemas : gmap string (list Field)) (typeNames : list string)
    (b : string) :
  fold_left (goType schemas) typeNames b
  = b +:+ strings.Join (map (goStruct schemas) typeNames).
Proof.
  apply fold_left_append. intros b0 typeName. unfold goType, goStruct.
  rewrite (fold_left_append goField goStructField) by reflexivity.
  now rewrite !append_assoc.
Qed.

Lemma generateCSBundle_result (rootName : string) (orderedTypeNames : list string)
    (schemas : gmap string (list Field)) :
  generateCSBundle rootName orderedTypeNames schemas
  = match firstUnmapped mapCSType (emittedFields orderedTypeNames schemas) with
    | Some f => Err (UnsupportedTypeError (RawType f))
    | None => Ok (csBundleText rootName orderedTypeNames schemas)
    end.
Proof.
  unfold generateCSBundle, csBundleText.
  match goal with |- context [csTypes schemas ?b _] =>
    pose proof (csTypes_result schemas orderedTypeNames b) as Hr;
    pose proof (csTypes_text schemas orderedTypeNames b) as Ht end.
  destruct (firstUnmapped mapCSType (emittedFields orderedTypeNames schemas)) as [f |].
  - now rewrite Hr.
  - rewrite (Ht eq_refl). simpl.
    rewrite (fold_left_append csRootMember csRootProperty) by reflexivity.
    now rewrite !append_assoc.
Qed.

Lemma generateTSBundle_result (rootName : string) (orderedTypeNames : list string)
    (schemas : gmap string (list Field)) :
  generateTSBundle rootName orderedTypeNames schemas
  = match firstUnmapped mapTSType (emittedFields orderedTypeNames schemas) with
    | Some f => Err (UnsupportedTypeError (RawType f))
    | None => Ok (tsBundleText rootName orderedTypeNames schemas)
    end.
Proof.
  unfold generateTSBundle, tsBundleText.
  pose proof (tsTypes_result schemas orderedTypeNames "") as Hr.
  pose proof (tsTypes_text schemas orderedTypeNames "") as Ht.
  destruct (firstUnmapped mapTSType (emittedFields orderedTypeNames schemas)) as [f |].
  - now rewrite Hr.
  - rewrite (Ht eq_refl). simpl.
    rewrite (fold_left_append tsRootMember tsRootMemberText) by reflexivity.
    now rewrite !append_assoc.
Qed.

Lemma generateGoBundle_result (pkg rootName : string) (orderedTypeNames : list string)
    (schemas : gmap string (list Field)) :
  generateGoBundle pkg rootName orderedTypeNames schemas
  = Ok (goBundleText pkg rootName orderedTypeNames schemas).
Proof.
  unfold generateGoBundle, goBundleText.
  rewrite goTypes_text, (fold_left_append goRootMember goRootField) by reflexivity.
  now rewrite !append_assoc.
Qed.

(** C1, as the code has it.  The C# and the TypeScript emitter resolve the
    raw type of every field they visit through their own table while
    they render.  When the table knows every raw type, the emitter
    returns the text of the bundle, in which the type of each field is
    the answer of the table for its raw type (the Go type stored in a
    field has no part in the text).  Otherwise there is a first visited
    field whose raw type the table lacks, in the order of the types and
    then of the fields, and the emitter fails with UnsupportedTypeError
    naming the raw type of that field; it fails in no other way.  The Go
    emitter looks nothing up: for every aggregate it returns the text of
    the bundle, in which the type of each field is the Go type that the
    parser stored in the field (the raw type has no part in the text),
    and it never fails. *)
Theorem C1_emitters_recheck (rootName : string) (orderedTypeNames : list string)
    (schemas : gmap string (list Field)) :
  let visited := emittedFields orderedTypeNames schemas in
  ((forall f, In f visited -> is_Some (mapCSType (RawType f))) ->
     generateCSBundle rootName orderedTypeNames schemas
     = Ok (csBundleText rootName orderedTypeNames schemas))
  /\ (forall f,
        firstUnmappedAt mapCSType visited f ->
        generateCSBundle rootName orderedTypeNames schemas
        = Err (UnsupportedTypeError (RawType f)))
  /\ ((forall f, In f visited -> is_Some (mapCSType (RawType f)))
      \/ exists f, firstUnmappedAt mapCSType visited f)
  /\ (forall schemas',
        (forall typeName,
           Forall2 sameButGoType (schemas !!! typeName) (schemas' !!! typeName)) ->
        generateCSBundle rootName orderedTypeNames schemas
        = generateCSBundle rootName orderedTypeNames schemas')
  /\ ((forall f, In f visited -> is_Some (mapTSType (RawType f))) ->
      generateTSBundle rootName orderedTypeNames schemas
      = Ok (tsBundleText rootName orderedTypeNames schemas))
  /\ (forall f,
        firstUnmappedAt mapTSType visited f ->
        generateTSBundle rootName orderedTypeNames schemas
        = Err (UnsupportedTypeError (RawType f)))
  /\ ((forall f, In f visited -> is_Some (mapTSType (RawType f)))
      \/ exists f, firstUnmappedAt mapTSType visited f)
  /\ (forall schemas',
        (forall typeName,
           Forall2 sameButGoType (schemas !!! typeName) (schemas' !!! typeName)) ->
        generateTSBundle rootName orderedTypeNames schemas
        = generateTSBundle rootName orderedTypeNames schemas')
  /\ (forall pkg,
        generateGoBundle pkg rootName orderedTypeNames schemas
        = Ok (goBundleText pkg rootName orderedTypeNames schemas))
  /\ (forall pkg schemas',
        (forall typeName,
           Forall2 sameButRawType (schemas !!! typeName) (schemas' !!! typeName)) ->
        generateGoBundle pkg rootName orderedTypeNames schemas
        = generateGoBundle pkg rootName orderedTypeNames schemas').
Proof.
  intros visited.
  split; [| split; [| split; [| split; [| split; [| split; [| split; [| split;
    [| split]]]]]]]].
  - intros H. apply firstUnmapped_None in H.
    rewrite generateCSBundle_result. fold visited. now rewrite H.
  - intros f H. apply firstUnmapped_Some_iff in H.
    rewrite generateCSBundle_result. fold visited. now rewrite H.
  - apply mapped_or_first.
  - intros schemas' H. unfold generateCSBundle.
    now rewrite (csTypes_reads schemas schemas' _ _ H).
  - intros H. apply firstUnmapped_None in H.
    rewrite generateTSBundle_result. fold visited. now rewrite H.
  - intros f H. apply firstUnmapped_Some_iff in H.
    rewrite generateTSBundle_result. fold visited. now rewrite H.
  - apply mapped_or_first.
  - intros schemas' H. unfold generateTSBundle.
    now rewrite (tsTypes_reads schemas schemas' _ _ H).
  - intros pkg. apply generateGoBundle_result.
  - intros pkg schemas' H. unfold generateGoBundle.
    now rewrite (goTypes_reads schemas schemas' _ H).
Qed.

(** A field whose raw type no table knows, as no parse produces it, and
    a field as the parser returns it. *)
Definition slippedField : Field :=
  mkField "id" "Id" "uuid" "UUID" 0 FieldFlagAll true false.

Definition parsedField : Field :=
  mkField "tags" "Tags" "Int[]" "[]int" 1 FieldFlagAll true false.

End Emitters.

(** The claim as stated fails for the Go emitter: on an aggregate whose
    type Item has the field above, of a raw type that the Go table
    lacks, it does not fail, and renders the field with the Go type
    stored in it. *)
Lemma C1_counterexample_go_emitter :
  (forall T : CaseTables, mapGoType (RawType slippedField) = None)
  /\ In slippedField (emittedFields ["Item"] {["Item" := [slippedField]]})
  /\ (forall T : CaseTables,
        generateGoBundle "config" "AllConfig" ["Item"] {["Item" := [slippedField]]}
        = Ok ("package config" +:+ nl +:+ nl
              +:+ "type AllConfig struct {" +:+ nl
              +:+ tab +:+ "Items []Item `json:" +:+ dq +:+ "items" +:+ dq +:+ "`" +:+ nl
              +:+ "}" +:+ nl +:+ nl
              +:+ "type Item struct {" +:+ nl
              +:+ tab +:+ "Id UUID `json:" +:+ dq +:+ "id" +:+ dq +:+ "`" +:+ nl
              +:+ "}" +:+ nl)).
Proof.
  split; [reflexivity |]. split; [| reflexivity].
  left. reflexivity.
Qed.

(** The C# and the TypeScript emitter refuse the field that the Go
    emitter renders, naming its raw type, and render a field whose raw
    type their tables know with the type of the table. *)
Lemma C1_emitters_witness :
  (forall T : CaseTables,
     generateCSBundle "AllConfig" ["Item"] {["Item" := [parsedField; slippedField]]}
     = Err (UnsupportedTypeError "uuid"))
  /\ (forall T : CaseTables,
        generateTSBundle "AllConfig" ["Item"] {["Item" := [parsedField; slippedField]]}
        = Err (UnsupportedTypeError "uuid"))
  /\ (forall T : CaseTables,
        generateTSBundle "AllConfig" ["Item"] {["Item" := [parsedField]]}
        = Ok ("export interface Item {" +:+ nl
              +:+ "  tags: number[];" +:+ nl
              +:+ "}" +:+ nl +:+ nl
              +:+ "export interface AllConfig {" +:+ nl
              +:+ "  items: Item[];" +:+ nl
              +:+ "}" +:+ nl)).
Proof.
  assert (forall T : CaseTables,
            firstUnmappedAt mapCSType
              (emittedFields ["Item"] {["Item" := [parsedField; slippedField]]}) slippedField
            /\ firstUnmappedAt mapTSType
                 (emittedFields ["Item"] {["Item" := [parsedField; slippedField]]})
                 slippedField) as Hfirst.
  { intros T. split; exists [parsedField], []; (split; [reflexivity |]);
      (split; [| reflexivity]); intros g [<- | []]; simpl; eauto. }
  split; [| split]; intros T.
  - destruct (C1_emitters_recheck "AllConfig" ["Item"]
                {["Item" := [parsedField; slippedField]]}) as (_ & Hcs & _).
    apply (Hcs slippedField), Hfirst.
  - destruct (C1_emitters_recheck "AllConfig" ["Item"]
                {["Item" := [parsedField; slippedField]]}) as (_ & _ & _ & _ & _ & Hts & _).
    apply (Hts slippedField), Hfirst.
  - destruct (C1_emitters_recheck "AllConfig" ["Item"] {["Item" := [parsedField]]})
      as (_ & _ & _ & _ & Hts & _).
    rewrite Hts; [reflexivity |].
    intros f [<- | []]. simpl. eauto.
Defined.

Section JsonKeys.

Context {T : CaseTables}.

(** ** C2: the keys of the aggregate *)

Lemma append_empty_r (a b : string) : a +:+ b = "" -> b = "".
Proof. destruct a; [auto | discriminate]. Qed.

Lemma jsonKeyOf_nonempty (typeName : string) :
  typeName <> "" -> jsonKeyOf typeName <> "".
Proof.
  intros Hne. unfold jsonKeyOf.
  assert (exists c rest, pluralizeTypeName typeName = String c rest /\ rest <> "")
    as (c & rest & -> & Hrest).
  { unfold pluralizeTypeName. destruct (String.eqb_spec typeName ""); [contradiction |].
    destruct typeName as [| c t]; [contradiction |].
    destruct (_ || _); exists c; eexists; (split; [reflexivity |]);
      intros E%append_empty_r; discriminate. }
  unfold lowerFirst. simpl. intros E%append_empty_r. contradiction.
Qed.

(** What holds of every aggregate that the run builds. *)
Definition keysInvariant (agg : Aggregate) : Prop :=
  NoDup (map jsonKeyOf (orderedTypeNames agg))
  /\ forall k, is_Some (seenKeys agg !! k) <-> In k (map jsonKeyOf (orderedTypeNames agg)).

Lemma keysInvariant_empty : keysInvariant emptyAggregate.
Proof.
  split; [constructor |]. intros k. simpl. rewrite lookup_empty.
  split; [intros [? [=]] | tauto].
Qed.

Section Keys.

Variable ParseFloat : string -> option float64.
Variable exportFlag : string.

(** The sheet passes every stage of [addSheet] that comes before the
    check of its key: it is accepted by the empty aggregate. *)
Definition acceptedAlone (origin name : string) (rows : list (list string)) : Prop :=
  exists agg, addSheet ParseFloat exportFlag emptyAggregate origin name rows = Ok agg.

(** [addSheet] up to the check of the key does not read the aggregate. *)
Lemma addSheet_cases (agg : Aggregate) (origin name : string)
    (rows : list (list string)) :
  (exists e, forall agg', addSheet ParseFloat exportFlag agg' origin name rows = Err e)
  \/ (exportName name <> ""
      /\ exists fields items,
           forall agg',
             addSheet ParseFloat exportFlag agg' origin name rows =
             match seenKeys agg' !! jsonKeyOf (exportName name) with
             | Some prev =>
               Err (DuplicateKeyError (jsonKeyOf (exportName name)) origin prev)
             | None =>
               Ok (mkAggregate
                     (<[exportName name := fields]> (schemas agg'))
                     (<[jsonKeyOf (exportName name) := items]> (jsonPayload agg'))
                     (<[jsonKeyOf (exportName name) := origin]> (seenKeys agg'))
                     (orderedTypeNames agg' ++ [exportName name])%list)
             end).
Proof.
  unfold addSheet, addSheetWith.
  destruct (detectHeaderSpec rows) as [spec | e]; [| eauto].
  destruct (HOrientation spec); [| eauto].
  destruct (parseFieldsFromDefineRow _ _ _) as [fields | e]; [| eauto].
  destruct (readHorizontalItems _ _ _ _) as [items | e]; [| eauto].
  destruct (String.eqb_spec (exportName name) "") as [E | E]; [eauto |].
  right. split; [exact E |]. exists fields, items. reflexivity.
Qed.

Lemma addSheet_Ok (agg agg' : Aggregate) (origin name : string)
    (rows : list (list string)) :
  addSheet ParseFloat exportFlag agg origin name rows = Ok agg' ->
  seenKeys agg !! jsonKeyOf (exportName name) = None
  /\ seenKeys agg' = <[jsonKeyOf (exportName name) := origin]> (seenKeys agg)
  /\ orderedTypeNames agg' = (orderedTypeNames agg ++ [exportName name])%list.
Proof.
  destruct (addSheet_cases agg origin name rows) as [[e He] | (_ & fields & items & H)].
  - rewrite He. discriminate.
  - rewrite H. destruct (seenKeys agg !! _); [discriminate |].
    intros [= <-]. auto.
Qed.

Lemma keysInvariant_addSheet (agg agg' : Aggregate) (origin name : string)
    (rows : list (list string)) :
  keysInvariant agg ->
  addSheet ParseFloat exportFlag agg origin name rows = Ok agg' ->
  keysInvariant agg'.
Proof.
  intros [Hnd Hdom] (Hnew & Hseen & Hnames)%addSheet_Ok. unfold keysInvariant.
  rewrite Hseen, Hnames, map_app. simpl. split.
  - apply NoDup_app. split; [exact Hnd |]. split.
    + intros k Hk%list_elem_of_In%Hdom Hk2%list_elem_of_In.
      destruct Hk2 as [<- | []]. rewrite Hnew in Hk. now destruct Hk.
    + apply NoDup_singleton.
  - intros k. rewrite in_app_iff, <- Hdom. simpl.
    destruct (decide (jsonKeyOf (exportName name) = k)) as [<- | Hne].
    + rewrite lookup_insert_eq. split; eauto.
    + rewrite lookup_insert_ne by exact Hne. tauto.
Qed.

Lemma keysInvariant_addSheets (sheets : list Sheet) :
  forall agg agg',
    keysInvariant agg ->
    addSheets ParseFloat exportFlag agg sheets = Ok agg' ->
    keysInvariant agg'.
Proof.
  induction sheets as [| sh sheets IH]; intros agg agg' Hinv H; simpl in H.
  - now injection H as <-.
  - destruct (addSheet _ _ agg _ _ _) as [agg1 |] eqn:E; [| discriminate].
    simpl in H. eauto using keysInvariant_addSheet.
Qed.

End Keys.

Definition sheetKey (sh : Sheet) : string := jsonKeyOf (exportName (sheetName sh)).

Lemma addSheets_registers (ParseFloat : string -> option float64)
    (exportFlag : string) (sheets : list Sheet) :
  forall agg agg',
    addSheets ParseFloat exportFlag agg sheets = Ok agg' ->
    orderedTypeNames agg'
    = (orderedTypeNames agg ++ map (fun sh => exportName (sheetName sh)) sheets)%list
    /\ (forall k v, seenKeys agg !! k = Some v -> seenKeys agg' !! k = Some v)
    /\ (forall sh, In sh sheets -> seenKeys agg' !! sheetKey sh = Some (sheetOrigin sh)).
Proof.
  induction sheets as [| sh sheets IH]; intros agg agg' H; simpl in H.
  - injection H as <-. simpl. rewrite app_nil_r. repeat split; auto. intros sh [].
  - destruct (addSheet _ _ agg _ _ _) as [agg1 |] eqn:E; [| discriminate].
    simpl in H. apply IH in H as (Hnames & Hkeep & Hreg).
    apply addSheet_Ok in E as (Hnew & Hseen & Hn1).
    split; [| split].
    + rewrite Hnames, Hn1, <- app_assoc. reflexivity.
    + intros k v Hk. apply Hkeep. rewrite Hseen.
      rewrite lookup_insert_ne; [exact Hk |]. intros <-. congruence.
    + intros sh' [<- | Hin]; [| auto].
      apply Hkeep. rewrite Hseen. apply lookup_insert_eq.
Qed.

(** C2. In every aggregate that the run builds the registered JSON keys
    are pairwise distinct; a sheet that is registered has a key that no
    sheet before it had, and the key is then bound to its origin; a sheet
    whose derived key was registered by an earlier sheet is refused with
    DuplicateKeyError naming the key, its own origin and the origin of
    that earlier sheet; and of two sheets with one key, each acceptable
    now, the second to be processed is refused in this way, in either
    order. *)
Theorem C2_json_keys_unique (ParseFloat : string -> option float64)
    (exportFlag : string) (sheets : list Sheet) (agg : Aggregate) :
  addSheets ParseFloat exportFlag emptyAggregate sheets = Ok agg ->
  orderedTypeNames agg = map (fun sh => exportName (sheetName sh)) sheets
  /\ NoDup (map sheetKey sheets)
  /\ (forall k, is_Some (seenKeys agg !! k) <-> In k (map sheetKey sheets))
  /\ (forall origin name rows agg',
        addSheet ParseFloat exportFlag agg origin name rows = Ok agg' ->
        ~ In (jsonKeyOf (exportName name)) (map sheetKey sheets)
        /\ seenKeys agg' !! jsonKeyOf (exportName name) = Some origin)
  /\ (forall sh origin name rows,
        In sh sheets ->
        jsonKeyOf (exportName name) = sheetKey sh ->
        acceptedAlone ParseFloat exportFlag origin name rows ->
        addSheet ParseFloat exportFlag agg origin name rows
        = Err (DuplicateKeyError (sheetKey sh) origin (sheetOrigin sh)))
  /\ (forall a b agg1 agg2,
        addSheets ParseFloat exportFlag agg [a] = Ok agg1 ->
        addSheets ParseFloat exportFlag agg [b] = Ok agg2 ->
        sheetKey a = sheetKey b ->
        addSheets ParseFloat exportFlag agg [a; b]
        = Err (DuplicateKeyError (sheetKey a) (sheetOrigin b) (sheetOrigin a))
        /\ addSheets ParseFloat exportFlag agg [b; a]
           = Err (DuplicateKeyError (sheetKey a) (sheetOrigin a) (sheetOrigin b))).
Proof.
  intros Hrun.
  pose proof (keysInvariant_addSheets _ _ _ _ _ keysInvariant_empty Hrun) as [Hnd Hdom].
  pose proof (addSheets_registers _ _ _ _ _ Hrun) as (Hnames & _ & Hreg).
  simpl in Hnames.
  assert (map jsonKeyOf (orderedTypeNames agg) = map sheetKey sheets) as Hkeys.
  { rewrite Hnames, map_map. reflexivity. }
  rewrite Hkeys in Hnd, Hdom.
  assert (forall st origin name rows prev,
            acceptedAlone ParseFloat exportFlag origin name rows ->
            seenKeys st !! jsonKeyOf (exportName name) = Some prev ->
            addSheet ParseFloat exportFlag st origin name rows
            = Err (DuplicateKeyError (jsonKeyOf (exportName name)) origin prev)) as Hdup.
  { intros st origin name rows prev [agg0 Hacc] Hprev.
    destruct (addSheet_cases ParseFloat exportFlag st origin name rows)
      as [[e He] | (_ & fields & items & H)].
    - rewrite He in Hacc. discriminate.
    - now rewrite H, Hprev. }
  assert (forall st st' origin name rows,
            addSheet ParseFloat exportFlag st origin name rows = Ok st' ->
            acceptedAlone ParseFloat exportFlag origin name rows) as Hacc.
  { intros st st' origin name rows H.
    destruct (addSheet_cases ParseFloat exportFlag st origin name rows)
      as [[e He] | (_ & fields & items & H')].
    - rewrite He in H. discriminate.
    - eexists. rewrite H'. simpl. rewrite lookup_empty. reflexivity. }
  repeat split.
  - exact Hnames.
  - exact Hnd.
  - apply Hdom.
  - apply Hdom.
  - apply addSheet_Ok in H as (Hnew & _ & _).
    intros Hin%Hdom. rewrite Hnew in Hin. now destruct Hin.
  - apply addSheet_Ok in H as (_ & -> & _). apply lookup_insert_eq.
  - intros sh origin name rows Hin Hkey Hal. rewrite <- Hkey.
    apply Hdup; [exact Hal |]. rewrite Hkey. now apply Hreg.
  - simpl in H, H0 |- *.
    destruct (addSheet _ _ agg (sheetOrigin a) _ _) as [st |] eqn:Ea; [| discriminate].
    simpl. unfold sheetKey in *.
    assert (Hb : acceptedAlone ParseFloat exportFlag (sheetOrigin b) (sheetName b) (sheetRows b)).
    { destruct (addSheet _ _ agg (sheetOrigin b) _ _) eqn:Eb; [eauto | discriminate]. }
    rewrite H1.
    rewrite (Hdup st _ _ _ (sheetOrigin a) Hb); [reflexivity |].
    apply addSheet_Ok in Ea as (_ & -> & _). rewrite <- H1. apply lookup_insert_eq.
  - simpl in H, H0 |- *.
    destruct (addSheet _ _ agg (sheetOrigin b) _ _) as [st |] eqn:Eb; [| discriminate].
    simpl. unfold sheetKey in *.
    assert (Ha : acceptedAlone ParseFloat exportFlag (sheetOrigin a) (sheetName a) (sheetRows a)).
    { destruct (addSheet _ _ agg (sheetOrigin a) _ _) eqn:Ea; [eauto | discriminate]. }
    rewrite (Hdup st _ _ _ (sheetOrigin b) Ha); [reflexivity |].
    apply addSheet_Ok in Eb as (_ & -> & _). rewrite H1. apply lookup_insert_eq.
Qed.

Definition itemSheet : Sheet :=
  mkSheet "a.xlsx[Item]" "Item" [["id"; "n"]; ["cid#int"; "count#int"]; ["1"; "5"]].

Definition itemSheetAgain : Sheet :=
  mkSheet "b.tsv" "item" [["cid#int"]; ["2"]].

End JsonKeys.

Lemma C2_json_keys_witness :
  (forall T : CaseTables, map sheetKey [itemSheet; itemSheetAgain] = ["items"; "items"])
  /\ forall (T : CaseTables) (ParseFloat : string -> option float64),
       exists agg,
         addSheets ParseFloat "" emptyAggregate [itemSheet] = Ok agg
         /\ NoDup (map sheetKey [itemSheet])
         /\ addSheet ParseFloat "" agg (sheetOrigin itemSheetAgain)
              (sheetName itemSheetAgain) (sheetRows itemSheetAgain)
            = Err (DuplicateKeyError "items" "b.tsv" "a.xlsx[Item]").
Proof.
  split; [reflexivity |]. intros T ParseFloat. eexists. split; [reflexivity |].
  pose proof (C2_json_keys_unique ParseFloat "" [itemSheet] _ eq_refl)
    as (_ & Hnd & _ & _ & Hdup & _).
  split; [exact Hnd |].
  apply (Hdup itemSheet); [left; reflexivity | reflexivity |].
  eexists. reflexivity.
Defined.

Section ExportedNames.

Context {T : CaseTables}.

(** ** C9: the exported-name transform applied twice *)

Lemma ContainsAny_separators (s : string) :
  strings.ContainsAny s "_-" = existsb isSeparator (strings.bytes s).
Proof.
  unfold strings.ContainsAny.
  induction (strings.bytes s) as [| c l IH]; [reflexivity |].
  cbn [existsb]. rewrite IH. unfold isSeparator at 1.
  change (strings.bytes "_-") with ["_"%char; "-"%char]. cbn [existsb].
  now rewrite orb_false_r.
Qed.

(** *** Bytes and runes *)

Lemma byteval_range (c : ascii) : 0 <= utf8.byteval c < 256.
Proof.
  unfold utf8.byteval. pose proof (N_ascii_bounded c). lia.
Qed.

Lemma byteval_byteof (z : Z) : 0 <= z < 256 -> utf8.byteval (utf8.byteof z) = z.
Proof.
  intros H. unfold utf8.byteval, utf8.byteof.
  rewrite N_ascii_embedding by lia. lia.
Qed.

Lemma isSeparator_byteval (c : ascii) :
  isSeparator c = true -> utf8.byteval c = 95 \/ utf8.byteval c = 45.
Proof.
  destruct c as [[] [] [] [] [] [] [] []]; intros H; try discriminate H;
    first [left; reflexivity | right; reflexivity].
Qed.

Lemma byteof_high (z : Z) : 128 <= z < 256 -> isSeparator (utf8.byteof z) = false.
Proof.
  intros H. destruct (isSeparator (utf8.byteof z)) eqn:E; [| reflexivity].
  apply isSeparator_byteval in E. rewrite byteval_byteof in E by lia. lia.
Qed.

Lemma lor_disjoint (m k x : Z) :
  0 <= m -> 0 <= x < 2 ^ m -> Z.lor (k * 2 ^ m) x = k * 2 ^ m + x.
Proof.
  intros Hm Hx. rewrite <- Z.add_lor_land.
  assert (Z.land (k * 2 ^ m) x = 0) as ->; [| lia].
  rewrite <- (Z.mod_small x (2 ^ m)) by lia.
  rewrite <- Z.land_ones by lia.
  rewrite (Z.land_comm x), Z.land_assoc, (Z.land_ones (k * 2 ^ m)) by lia.
  rewrite Z.mod_mul by lia. apply Z.land_0_l.
Qed.

Lemma land_low (x : Z) (m : Z) :
  0 <= m -> Z.land x (2 ^ m - 1) = x mod 2 ^ m.
Proof.
  intros Hm. rewrite <- Z.land_ones by lia. f_equal. rewrite Z.ones_equiv. lia.
Qed.

(** A text without separator bytes. *)
Definition sepFree (l : list ascii) : Prop := existsb isSeparator l = false.

Lemma sepFree_cons (c : ascii) (l : list ascii) :
  sepFree (c :: l) <-> isSeparator c = false /\ sepFree l.
Proof. unfold sepFree. simpl. apply orb_false_iff. Qed.

Lemma sepFree_app (a b : list ascii) : sepFree (a ++ b)%list <-> sepFree a /\ sepFree b.
Proof. unfold sepFree. rewrite existsb_app. apply orb_false_iff. Qed.

Lemma sepFree_rev (l : list ascii) : sepFree l -> sepFree (rev l).
Proof.
  induction l as [| c l IH]; [auto |]. simpl.
  intros [Hc Hl]%sepFree_cons. apply sepFree_app. split; [auto |].
  apply sepFree_cons. split; [exact Hc | reflexivity].
Qed.

Lemma lor_high (k m y : Z) :
  0 <= m -> 0 <= y < 2 ^ m -> 128 <= k * 2 ^ m -> k * 2 ^ m + 2 ^ m <= 256 ->
  isSeparator (utf8.byteof (Z.lor (k * 2 ^ m) y)) = false.
Proof.
  intros Hm Hy Hlo Hhi. rewrite lor_disjoint by lia. apply byteof_high. lia.
Qed.

Lemma continuation_byte (y : Z) :
  isSeparator (utf8.byteof (Z.lor 128 (Z.land y 63))) = false.
Proof.
  apply (lor_high 2 6); try lia.
  change 63 with (2 ^ 6 - 1). rewrite land_low by lia. apply Z.mod_pos_bound. lia.
Qed.

(** The encoding of a rune from U+0080 on has no ASCII byte. *)
Lemma EncodeRune_high (r : Z) : 128 <= r -> sepFree (utf8.EncodeRune r).
Proof.
  intros Hr. unfold utf8.EncodeRune, utf8.between, utf8.MaxRune.
  replace (r <=? 127) with false by (symmetry; apply Z.leb_gt; lia).
  rewrite andb_false_r.
  replace (128 <=? r) with true by (symmetry; apply Z.leb_le; lia).
  replace (r <? 0) with false by (symmetry; apply Z.ltb_ge; lia).
  simpl andb. simpl orb.
  destruct (r <=? 2047) eqn:E1.
  - apply Z.leb_le in E1.
    repeat (apply sepFree_cons; split); try reflexivity;
      [| apply continuation_byte].
    apply (lor_high 3 6); try lia.
    rewrite Z.shiftr_div_pow2 by lia. Z.div_mod_to_equations. lia.
  - apply Z.leb_gt in E1.
    destruct ((1114111 <? r) || ((55296 <=? r) && (r <=? 57343))) eqn:E2;
      [reflexivity |].
    apply orb_false_iff in E2 as [E2 _]. apply Z.ltb_ge in E2.
    destruct (r <=? 65535) eqn:E3.
    + apply Z.leb_le in E3.
      repeat (apply sepFree_cons; split); try reflexivity;
        try apply continuation_byte.
      apply (lor_high 14 4); try lia.
      rewrite Z.shiftr_div_pow2 by lia. Z.div_mod_to_equations. lia.
    + apply Z.leb_gt in E3.
      repeat (apply sepFree_cons; split); try reflexivity;
        try apply continuation_byte.
      apply (lor_high 30 3); try lia.
      rewrite Z.shiftr_div_pow2 by lia. Z.div_mod_to_equations. lia.
Qed.

Lemma decode_low (c : ascii) (rest : list ascii) :
  utf8.byteval c < 128 ->
  utf8.DecodeRuneInString (c :: rest) = (utf8.byteval c, 1%nat).
Proof.
  intros H. unfold utf8.DecodeRuneInString, utf8.RuneSelf.
  now replace (utf8.byteval c <? 128) with true by (symmetry; apply Z.ltb_lt; lia).
Qed.

Lemma decode_single_high (c : ascii) :
  128 <= utf8.byteval c ->
  utf8.DecodeRuneInString [c] = (utf8.RuneError, 1%nat).
Proof.
  intros H. unfold utf8.DecodeRuneInString, utf8.RuneSelf.
  replace (utf8.byteval c <? 128) with false by (symmetry; apply Z.ltb_ge; lia).
  now destruct (utf8.lead (utf8.byteval c)) as [[[sz lo] hi] |].
Qed.

Lemma lead_cases (b0 : Z) (sz : nat) (lo hi : Z) :
  utf8.lead b0 = Some (sz, lo, hi) ->
  128 <= lo /\ hi <= 191
  /\ ((sz = 2%nat /\ 194 <= b0 <= 223)
      \/ (sz = 3%nat /\ ((b0 = 224 /\ lo = 160) \/ 225 <= b0 <= 239))
      \/ (sz = 4%nat /\ ((b0 = 240 /\ lo = 144) \/ 241 <= b0 <= 244))).
Proof.
  unfold utf8.lead, utf8.between.
  repeat match goal with
  | |- context [if ?b then _ else _] =>
    let E := fresh "E" in destruct b eqn:E;
    [ intros [= <- <- <-];
      repeat match goal with
      | H : (_ && _) = true |- _ => apply andb_true_iff in H as [? ?]
      | H : (_ <=? _) = true |- _ => apply Z.leb_le in H
      | H : (_ =? _) = true |- _ => apply Z.eqb_eq in H
      end; lia
    | ]
  end.
  discriminate.
Qed.

(** A byte that is not ASCII never decodes to an ASCII rune. *)
Lemma decode_high (c : ascii) (rest : list ascii) :
  128 <= utf8.byteval c ->
  128 <= fst (utf8.DecodeRuneInString (c :: rest)).
Proof.
  intros H. unfold utf8.DecodeRuneInString, utf8.RuneSelf, utf8.RuneError, utf8.cont,
    utf8.between.
  replace (utf8.byteval c <? 128) with false by (symmetry; apply Z.ltb_ge; lia).
  destruct (utf8.lead (utf8.byteval c)) as [[[sz lo] hi] |] eqn:El; [| simpl; lia].
  apply lead_cases in El as (Hlo & Hhi & Hsz).
  pose proof (byteval_range c) as Hc.
  destruct rest as [| c1 t1]; [simpl; lia |].
  pose proof (byteval_range c1) as Hc1.
  destruct ((lo <=? utf8.byteval c1) && (utf8.byteval c1 <=? hi)) eqn:E1;
    [| simpl; lia].
  apply andb_true_iff in E1 as [E1a%Z.leb_le E1b%Z.leb_le]. simpl negb. cbv iota.
  change 63 with (2 ^ 6 - 1). change 31 with (2 ^ 5 - 1).
  change 15 with (2 ^ 4 - 1). change 7 with (2 ^ 3 - 1).
  rewrite !land_low, !Z.shiftl_mul_pow2 by lia.
  destruct (sz <=? 2)%nat eqn:S2.
  { simpl fst. rewrite lor_disjoint by (try lia; apply Z.mod_pos_bound; lia).
    apply Nat.leb_le in S2. Z.div_mod_to_equations. lia. }
  destruct t1 as [| c2 t2]; [simpl; lia |].
  destruct ((128 <=? utf8.byteval c2) && (utf8.byteval c2 <=? 191)); [| simpl; lia].
  simpl negb. cbv iota.
  rewrite ?land_low, ?Z.shiftl_mul_pow2 by lia.
  destruct (sz <=? 3)%nat eqn:S3.
  { simpl fst. apply Nat.leb_gt in S2. apply Nat.leb_le in S3.
    rewrite (lor_disjoint 6) by (try lia; apply Z.mod_pos_bound; lia).
    rewrite (lor_disjoint 12) by (try lia; Z.div_mod_to_equations; lia).
    Z.div_mod_to_equations. lia. }
  destruct t2 as [| c3 t3]; [simpl; lia |].
  destruct ((128 <=? utf8.byteval c3) && (utf8.byteval c3 <=? 191)); [| simpl; lia].
  simpl negb. cbv iota. simpl fst.
  rewrite ?land_low, ?Z.shiftl_mul_pow2 by lia.
  apply Nat.leb_gt in S2, S3.
  rewrite (lor_disjoint 6) by (try lia; apply Z.mod_pos_bound; lia).
  rewrite (lor_disjoint 12) by (try lia; Z.div_mod_to_equations; lia).
  rewrite (lor_disjoint 18) by (try lia; Z.div_mod_to_equations; lia).
  Z.div_mod_to_equations. lia.
Qed.

Lemma MapFrom_step (mapping : Z -> Z) (c : ascii) (rest : list ascii) :
  strings.MapFrom mapping 0 (c :: rest)
  = ((if mapping (fst (utf8.DecodeRuneInString (c :: rest))) <? 0 then []
      else utf8.EncodeRune (mapping (fst (utf8.DecodeRuneInString (c :: rest)))))
     ++ strings.MapFrom mapping
          (Nat.pred (snd (utf8.DecodeRuneInString (c :: rest)))) rest)%list.
Proof.
  cbn [strings.MapFrom]. now destruct (utf8.DecodeRuneInString (c :: rest)).
Qed.

Lemma lower_rune_sepFree (c : ascii) :
  utf8.byteval c < 128 -> isSeparator c = false ->
  sepFree (utf8.EncodeRune (unicode.ToLower (utf8.byteval c))).
Proof.
  destruct c as [[] [] [] [] [] [] [] []]; intros H1 H2;
    try discriminate H2; try (exfalso; revert H1; vm_compute; congruence);
    reflexivity.
Qed.

Lemma EncodeRune_low (r : Z) : 0 <= r < 128 -> utf8.EncodeRune r = [utf8.byteof r].
Proof.
  intros Hr. unfold utf8.EncodeRune, utf8.between.
  replace (0 <=? r) with true by (symmetry; apply Z.leb_le; lia).
  replace (r <=? 127) with true by (symmetry; apply Z.leb_le; lia).
  reflexivity.
Qed.

(** What the general statements on lower-cased text below use of the
    case tables: no rune from U+0080 on has the underscore or the hyphen
    as its lower case (in the tables of Go the only such runes with an
    ASCII lower case are U+0130 and U+212A, with i and k). *)
Hypothesis lowerCase_no_separator :
  forall r, 128 <= r -> lowerCase r <> 95 /\ lowerCase r <> 45.

(** [strings.Map unicode.ToLower] writes no separator byte that it did
    not read. *)
Lemma MapFrom_ToLower_sepFree (s : list ascii) :
  forall skip, sepFree s -> sepFree (strings.MapFrom unicode.ToLower skip s).
Proof.
  induction s as [| c s IH]; intros skip Hs; [reflexivity |].
  apply sepFree_cons in Hs as [Hc Hs].
  destruct skip as [| k]; [| cbn [strings.MapFrom]; auto].
  rewrite MapFrom_step. apply sepFree_app. split; [| auto].
  destruct (Z.lt_ge_cases (utf8.byteval c) 128) as [Hlow | Hhigh].
  - rewrite (decode_low c s Hlow). simpl fst.
    pose proof (byteval_range c).
    replace (unicode.ToLower (utf8.byteval c) <? 0) with false.
    + now apply lower_rune_sepFree.
    + symmetry. apply Z.ltb_ge. unfold unicode.ToLower.
      replace (utf8.byteval c <=? 127) with true by (symmetry; apply Z.leb_le; lia).
      destruct (utf8.between _ _ _); lia.
  - pose proof (decode_high c s Hhigh) as Hr.
    set (d := fst (utf8.DecodeRuneInString (c :: s))) in *.
    assert (unicode.ToLower d = lowerCase d) as ->.
    { unfold unicode.ToLower.
      now replace (d <=? 127) with false by (symmetry; apply Z.leb_gt; lia). }
    destruct (Z.ltb_spec (lowerCase d) 0) as [Hneg | Hpos]; [reflexivity |].
    destruct (Z.lt_ge_cases (lowerCase d) 128) as [Hl | Hh].
    + rewrite EncodeRune_low by lia. apply sepFree_cons. split; [| reflexivity].
      destruct (isSeparator (utf8.byteof (lowerCase d))) eqn:E; [| reflexivity].
      apply isSeparator_byteval in E. rewrite byteval_byteof in E by lia.
      destruct (lowerCase_no_separator d Hr). lia.
    + now apply EncodeRune_high.
Qed.

(** *** The case functions on texts without separator *)

Lemma ToUpper_byte_low (c : ascii) :
  utf8.byteval c < 128 ->
  strings.ToUpper (String c "") = String (strings.upperByte c) "".
Proof.
  intros H. unfold strings.ToUpper, strings.isASCII, utf8.RuneSelf. simpl.
  now replace (utf8.byteval c <? 128) with true by (symmetry; apply Z.ltb_lt; lia).
Qed.

Definition replacement : string :=
  String "239" (String "191" (String "189" "")).

(** Upper-casing a single byte that is not ASCII gives the encoding of
    U+FFFD. *)
Lemma ToUpper_byte_high (c : ascii) :
  128 <= utf8.byteval c -> strings.ToUpper (String c "") = replacement.
Proof.
  intros H. unfold strings.ToUpper, strings.isASCII, utf8.RuneSelf. simpl forallb.
  replace (utf8.byteval c <? 128) with false by (symmetry; apply Z.ltb_ge; lia).
  simpl andb. cbv iota. unfold strings.Map.
  change (strings.bytes (String c "")) with [c].
  rewrite MapFrom_step, (decode_single_high c H). simpl fst. simpl snd.
  unfold unicode.ToUpper, utf8.RuneError. simpl Z.leb. cbv iota.
  rewrite upperCase_RuneError. reflexivity.
Qed.

Lemma upperByte_facts (c : ascii) :
  (utf8.byteval (strings.upperByte c) <? utf8.RuneSelf) = (utf8.byteval c <? utf8.RuneSelf)
  /\ isSeparator (strings.upperByte c) = isSeparator c
  /\ strings.upperByte (strings.upperByte c) = strings.upperByte c.
Proof. destruct c as [[] [] [] [] [] [] [] []]; repeat split. Qed.

Lemma lowerByte_sep (c : ascii) : isSeparator (strings.lowerByte c) = isSeparator c.
Proof. destruct c as [[] [] [] [] [] [] [] []]; reflexivity. Qed.

Lemma ToUpper_byte_sepFree (c : ascii) :
  isSeparator c = false -> sepFree (strings.bytes (strings.ToUpper (String c ""))).
Proof.
  intros Hc. destruct (Z.lt_ge_cases (utf8.byteval c) 128) as [Hlow | Hhigh].
  - rewrite (ToUpper_byte_low c Hlow). apply sepFree_cons.
    destruct (upperByte_facts c) as (_ & -> & _). split; [exact Hc | reflexivity].
  - rewrite (ToUpper_byte_high c Hhigh). reflexivity.
Qed.

Lemma ToLower_sepFree (s : string) :
  sepFree (strings.bytes s) -> sepFree (strings.bytes (strings.ToLower s)).
Proof.
  intros Hs. unfold strings.ToLower. destruct (strings.isASCII s).
  - rewrite bytes_str. induction (strings.bytes s) as [| c l IH]; [reflexivity |].
    apply sepFree_cons in Hs as [Hc Hl]. simpl. apply sepFree_cons.
    rewrite lowerByte_sep. auto.
  - unfold strings.Map. rewrite bytes_str. now apply MapFrom_ToLower_sepFree.
Qed.

(** *** The parts that [FieldsFunc] cuts out *)

Definition part (p : string) : Prop := p <> "" /\ sepFree (strings.bytes p).

(** The first byte of a text that is no separator. *)
Definition firstNonSeparator (l : list ascii) : option ascii :=
  find (fun c => negb (isSeparator c)) l.

Lemma str_nonempty (c : ascii) (l : list ascii) : strings.str (c :: l) <> "".
Proof. discriminate. Qed.

Lemma fieldsFrom_parts (s : list ascii) :
  (forall cur, cur <> [] -> sepFree cur ->
     exists r ps,
       strings.fieldsFrom isSeparator cur s = strings.str (rev cur ++ r)%list :: ps
       /\ sepFree r /\ Forall part ps)
  /\ Forall part (strings.fieldsFrom isSeparator [] s).
Proof.
  induction s as [| c s [IH1 IH2]].
  - split; [| constructor]. intros cur Hne Hcur. exists [], [].
    destruct cur; [contradiction |]. cbn [strings.fieldsFrom].
    rewrite app_nil_r. split; [reflexivity |]. split; [reflexivity | constructor].
  - assert (forall cur, cur <> [] -> sepFree cur ->
              exists r ps,
                strings.fieldsFrom isSeparator cur (c :: s)
                = strings.str (rev cur ++ r)%list :: ps
                /\ sepFree r /\ Forall part ps) as H1.
    { intros cur Hne Hcur. simpl. destruct (isSeparator c) eqn:E.
      - exists [], (strings.fieldsFrom isSeparator [] s).
        destruct cur; [contradiction |]. rewrite app_nil_r.
        split; [reflexivity |]. split; [reflexivity | exact IH2].
      - destruct (IH1 (c :: cur)) as (r & ps & -> & Hr & Hps);
          [discriminate | now apply sepFree_cons |].
        exists (c :: r), ps. simpl. rewrite <- app_assoc. simpl.
        repeat split; auto. now apply sepFree_cons. }
    split; [exact H1 |]. simpl. destruct (isSeparator c) eqn:E; [exact IH2 |].
    destruct (IH1 [c]) as (r & ps & -> & Hr & Hps);
      [discriminate | now apply sepFree_cons |].
    constructor; [| exact Hps]. change (rev [c] ++ r)%list with (c :: r).
    split; [discriminate |]. rewrite bytes_str. now apply sepFree_cons.
Qed.

Lemma fieldsFrom_first (s : list ascii) :
  match firstNonSeparator s with
  | None => strings.fieldsFrom isSeparator [] s = []
  | Some c =>
    isSeparator c = false
    /\ exists r ps,
         strings.fieldsFrom isSeparator [] s = String c (strings.str r) :: ps
         /\ sepFree r /\ Forall part ps
  end.
Proof.
  induction s as [| c s IH]; [reflexivity |].
  unfold firstNonSeparator in *. simpl. destruct (isSeparator c) eqn:E; simpl.
  - exact IH.
  - split; [exact E |].
    destruct (proj1 (fieldsFrom_parts s) [c]) as (r & ps & -> & Hr & Hps);
      [discriminate | now apply sepFree_cons |].
    exists r, ps. auto.
Qed.

Lemma capitalizePart_sepFree (p : string) :
  part p -> sepFree (strings.bytes (capitalizePart p)).
Proof.
  intros [Hne Hp]. destruct p as [| c r]; [contradiction |].
  simpl in Hp. apply sepFree_cons in Hp as [Hc Hr].
  unfold capitalizePart. change (String.eqb (String c r) "") with false. cbv iota.
  rewrite bytes_app. apply sepFree_app.
  split; [now apply ToUpper_byte_sepFree | now apply ToLower_sepFree].
Qed.

Lemma Join_sepFree (parts : list string) :
  Forall (fun p => sepFree (strings.bytes p)) parts ->
  sepFree (strings.bytes (strings.Join parts)).
Proof.
  induction 1 as [| p parts Hp _ IH]; simpl; [reflexivity |].
  rewrite bytes_app. apply sepFree_app. auto.
Qed.

(** *** What the transform returns *)

(** The result is empty for a name of separators only; otherwise it is
    the upper case of the first byte that is no separator, followed by a
    text without separators. *)
Lemma exportName_shape (name : string) :
  match firstNonSeparator (strings.bytes name) with
  | None => exportName name = ""
  | Some c =>
    isSeparator c = false
    /\ exists t,
         sepFree (strings.bytes t)
         /\ exportName name = strings.ToUpper (String c "") +:+ t
  end.
Proof.
  destruct name as [| c rest]; [reflexivity |].
  unfold exportName. change (String.eqb (String c rest) "") with false. cbv iota.
  rewrite ContainsAny_separators.
  destruct (existsb isSeparator (strings.bytes (String c rest))) eqn:Esep;
    simpl negb; cbv iota.
  - unfold strings.FieldsFunc.
    pose proof (fieldsFrom_first (strings.bytes (String c rest))) as H.
    destruct (firstNonSeparator (strings.bytes (String c rest))) as [c0 |].
    + destruct H as (Hc0 & r & ps & -> & Hr & Hps). split; [exact Hc0 |].
      exists (strings.ToLower (strings.str r) +:+ strings.Join (map capitalizePart ps)).
      split.
      * rewrite bytes_app. apply sepFree_app. split.
        -- apply ToLower_sepFree. now rewrite bytes_str.
        -- apply Join_sepFree. rewrite List.Forall_forall.
           intros q (p & <- & Hin)%in_map_iff. rewrite List.Forall_forall in Hps.
           apply capitalizePart_sepFree. auto.
      * simpl. unfold capitalizePart at 1.
        change (String.eqb (String c0 (strings.str r)) "") with false. cbv iota.
        simpl strings.first1. simpl strings.from1. apply append_assoc.
    + now rewrite H.
  - simpl in Esep. apply orb_false_iff in Esep as [Ec Er].
    unfold firstNonSeparator. simpl. rewrite Ec. simpl.
    split; [exact Ec |]. exists rest. auto.
Qed.

Lemma exportName_sepFree_text (c : ascii) (t : string) :
  sepFree (c :: strings.bytes t) ->
  exportName (String c t) = strings.ToUpper (String c "") +:+ t.
Proof.
  intros H. unfold exportName. change (String.eqb (String c t) "") with false.
  cbv iota. rewrite ContainsAny_separators.
  change (strings.bytes (String c t)) with (c :: strings.bytes t).
  now rewrite H.
Qed.

(** The transform is idempotent at a name exactly when the first byte of
    the name that is no separator, if there is one, is ASCII. *)
Theorem exportName_idempotent_iff (name : string) :
  exportName (exportName name) = exportName name <->
  match firstNonSeparator (strings.bytes name) with
  | None => True
  | Some c => utf8.byteval c < 128
  end.
Proof.
  pose proof (exportName_shape name) as H.
  destruct (firstNonSeparator (strings.bytes name)) as [c |].
  - destruct H as (Hc & t & Ht & ->).
    destruct (Z.lt_ge_cases (utf8.byteval c) 128) as [Hlow | Hhigh].
    + split; [auto | intros _].
      rewrite (ToUpper_byte_low c Hlow).
      change (String (strings.upperByte c) "" +:+ t)
        with (String (strings.upperByte c) t).
      destruct (upperByte_facts c) as (Ha & Hs & Hi).
      rewrite exportName_sepFree_text
        by (apply sepFree_cons; split; [congruence | exact Ht]).
      rewrite ToUpper_byte_low; [now rewrite Hi |].
      apply Z.ltb_lt. unfold utf8.RuneSelf in Ha. rewrite Ha. now apply Z.ltb_lt.
    + split; [| lia]. intros Heq. exfalso.
      rewrite (ToUpper_byte_high c Hhigh) in Heq.
      change (replacement +:+ t)
        with (String "239" (String "191" (String "189" t))) in Heq.
      rewrite exportName_sepFree_text in Heq
        by (repeat (apply sepFree_cons; split; [reflexivity |]); exact Ht).
      rewrite ToUpper_byte_high in Heq by (vm_compute; discriminate).
      change (replacement +:+ String "191" (String "189" t))
        with (String "239" (String "191" (String "189"
                (String "191" (String "189" t))))) in Heq.
      injection Heq as Heq.
      apply (f_equal String.length) in Heq. simpl in Heq. lia.
  - rewrite H. split; [auto | reflexivity].
Qed.

(** On ASCII names the transform is idempotent. *)
Corollary exportName_idempotent_ascii (name : string) :
  strings.isASCII name = true ->
  exportName (exportName name) = exportName name.
Proof.
  intros Hascii. apply exportName_idempotent_iff.
  destruct (firstNonSeparator (strings.bytes name)) as [c |] eqn:E; [| exact I].
  apply find_some in E as [Hin _]. unfold strings.isASCII in Hascii.
  rewrite forallb_forall in Hascii. apply Z.ltb_lt. now apply Hascii.
Qed.

(** C9. The exported-name transform is not idempotent on every string:
    on a name whose first byte is not ASCII, such as the two bytes of the
    UTF-8 text for the letter e with acute accent, the slice of one byte
    is no valid UTF-8, ToUpper replaces it by the three bytes of U+FFFD,
    and the second application does the same to the first of those. The
    example of the specification holds: data_id gives DataId, and DataId
    gives DataId. *)
Theorem C9_exportName_twice_on_multibyte :
  let name := String "195" (String "169" "") in
  exportName name = String "239" (String "191" (String "189" (String "169" "")))
  /\ exportName (exportName name)
     = String "239" (String "191" (String "189"
         (String "191" (String "189" (String "169" "")))))
  /\ exportName (exportName name) <> exportName name
  /\ exportName "data_id" = "DataId"
  /\ exportName "DataId" = "DataId".
Proof.
  intros name.
  assert (exportName name
          = String "239" (String "191" (String "189" (String "169" "")))) as H1.
  { unfold name. rewrite exportName_sepFree_text by reflexivity.
    rewrite ToUpper_byte_high by (vm_compute; discriminate). reflexivity. }
  assert (exportName (exportName name)
          = String "239" (String "191" (String "189"
              (String "191" (String "189" (String "169" "")))))) as H2.
  { rewrite H1. rewrite exportName_sepFree_text by reflexivity.
    rewrite ToUpper_byte_high by (vm_compute; discriminate). reflexivity. }
  split; [exact H1 |]. split; [exact H2 |].
  split; [rewrite H2, H1; discriminate |]. split; reflexivity.
Qed.

End ExportedNames.
